(** * Sensitivity mapping (autofit/non_linear/grid/sensitivity.py)

    A shallow embedding of the sensitivity grid-scheduling code of PyAutoFit:
    the grid of unit-hypercube vectors, the labels, the paired searches of a
    [Job], [Job.perform], [JobResult.log_likelihood_difference] and
    [Sensitivity.run].

    Python floats are modelled as exact rationals [Q].  Python generators are
    modelled by the list of what they yield, or by the exception they raise
    on the first pull. *)

From Stdlib Require Import QArith Qround Qreduction.
From Stdlib Require Import Ascii String Sorting.Sorted.
From stdpp Require Import gmap strings list pretty sorting.

Local Open Scope string_scope.
Local Open Scope list_scope.

(** ** Exceptions *)

Inductive exn : Type :=
| ConfigurationError
| FitException.

(** ** The grid of unit-hypercube vectors *)

(** [step_size: Union[Tuple[float], float]] *)
Inductive StepSize : Type :=
| Uniform (s : Q)
| PerDimension (ss : list Q).

Module Grid.

(** The per-dimension step sizes of a configuration. *)
Definition step_sizes (no_dimensions : nat) (step_size : StepSize) : list Q :=
  match step_size with
  | Uniform s => replicate no_dimensions s
  | PerDimension ss => ss
  end.

(** A step size is valid when [0 < s <= 1]. *)
Definition valid_step (s : Q) : bool :=
  negb (Qle_bool s 0) && Qle_bool s 1.

(** [floor(1/s)], the number of points on one axis. *)
Definition steps_per_axis (s : Q) : nat := Z.to_nat (Qfloor (/ s)).

(** The [k]-th point of an axis, [k * s], in lowest terms. *)
Definition point (s : Q) (k : nat) : Q := Qred (inject_Z (Z.of_nat k) * s).

(** [s, 2s, ..., floor(1/s) * s] *)
Definition axis_points (s : Q) : list Q :=
  map (point s) (seq 1 (steps_per_axis s)).

(** Cartesian product of the axes, the first axis in the outer loop. *)
Fixpoint product (axes : list (list Q)) : list (list Q) :=
  match axes with
  | [] => [[]]
  | axis :: rest =>
      flat_map (fun value => map (cons value) (product rest)) axis
  end.

(** The number of vectors: the product of the points per axis. *)
Definition grid_size (ss : list Q) : nat :=
  foldr (fun s n => steps_per_axis s * n) 1 ss.

End Grid.

(** Modelled from the spec: [make_lists] of [autofit.non_linear.grid.grid_search]
    is imported by sensitivity.py but its file is not part of the sources.
    Section 4.1 of the specification: for every dimension the evenly spaced
    points [step, 2 step, ..., floor(1/step) step], their cartesian product
    with the first dimension varying slowest; a step size [<= 0] or [> 1],
    or a per-dimension sequence whose length is not the dimensionality, is a
    configuration error. *)
Definition make_lists (no_dimensions : nat) (step_size : StepSize)
  : exn + list (list Q) :=
  let ss := Grid.step_sizes no_dimensions step_size in
  if (length ss =? no_dimensions)%nat && forallb Grid.valid_step ss
  then inr (Grid.product (map Grid.axis_points ss))
  else inl ConfigurationError.

(** Lexicographic order on vectors, first component most significant. *)
Inductive lex_lt : list Q -> list Q -> Prop :=
| lex_lt_head x y xs ys : (x < y)%Q -> lex_lt (x :: xs) (y :: ys)
| lex_lt_tail x xs ys : lex_lt xs ys -> lex_lt (x :: xs) (x :: ys).

(** ** The error monad of generators and of [run] *)

#[global] Instance exn_ret : MRet (sum exn) := fun _ x => inr x.
#[global] Instance exn_bind : MBind (sum exn) :=
  fun _ _ f m => match m with inl e => inl e | inr x => f x end.
#[global] Instance exn_fmap : FMap (sum exn) :=
  fun _ _ f m => match m with inl e => inl e | inr x => inr (f x) end.

(** ** Strings *)

(** No character of the string is an underscore. *)
Fixpoint underscore_free (s : string) : bool :=
  match s with
  | EmptyString => true
  | String c s' => negb (Ascii.eqb c "_"%char) && underscore_free s'
  end.

(** What follows the first string in an underscore-join of strings. *)
Definition rest (ts : list string) : string :=
  match ts with [] => "" | _ :: _ => "_" +:+ String.concat "_" ts end.

(** ** Paths, searches, results *)

(** The keyword arguments of the [Paths] constructor. *)
Record Paths : Type := Paths_init {
  name : string;
  tag : string;
  path_prefix : string;
  remove_files : bool
}.

(** A non-linear search.  The source reads [paths.non_linear_tag] from the
    paths of the template only; the [Paths] constructor takes no such
    argument, so the value is kept with the search.  [settings] stands for
    the rest of the search's configuration. *)
Record NonLinearSearch : Type := {
  paths : Paths;
  non_linear_tag : string;
  settings : nat
}.

(** Modelled from the spec: [copy_with_paths] of [NonLinearSearch] is not part
    of the sources.  Section 6: it produces an independently namespaced,
    otherwise identical search configuration. *)
Definition copy_with_paths (search : NonLinearSearch) (new_paths : Paths)
  : NonLinearSearch :=
  {| paths := new_paths;
     non_linear_tag := non_linear_tag search;
     settings := settings search |}.

(** [Result]: the part which this code reads. *)
Record Result : Type := { log_likelihood : Q }.

(** class JobResult *)
Record JobResult : Type := JobResult_init {
  result : Result;
  perturbed_result : Result
}.

Definition log_likelihood_difference (self : JobResult) : Q :=
  log_likelihood (perturbed_result self) - log_likelihood (result self).

Section Sensitivity.

(** Physical parameter values with their rendering in an f-string,
    instances of models, images and analyses. *)
Context {Value Instance Image Analysis : Type}.
Variable format_value : Value -> string.

(** The state of the outside world on which a fit depends and acts. *)
Context {World : Type}.

(** A prior, with its transform from the unit interval. *)
Record Prior : Type := { value_for : Q -> Value }.

(** The part of [AbstractPriorModel] which this code uses. *)
Record AbstractPriorModel : Type := {
  prior_count : nat;
  prior_tuples : list (string * Prior);
  instance_from_unit_vector : list Q -> Instance
}.

(** [CollectionPriorModel()] and [ModelInstance()] followed by attribute
    assignments: a map from attribute names. *)
Abbreviation CollectionPriorModel := (gmap string AbstractPriorModel).
Abbreviation ModelInstance := (gmap string Instance).

(** Computations which read and write the world and may raise. *)
Definition M (A : Type) : Type := World -> (exn + A) * World.

Definition ret {A} (x : A) : M A := fun w => (inr x, w).

Definition bind {A B} (m : M A) (f : A -> M B) : M B :=
  fun w =>
    match m w with
    | (inl e, w') => (inl e, w')
    | (inr x, w') => f x w'
    end.

Notation "'let!' x ':=' m 'in' k" := (bind m (fun x => k))
  (at level 10, x name, m at level 200, k at level 200, only parsing).

(** [search.fit(model=..., analysis=...)], the external search capability. *)
Variable fit : NonLinearSearch -> CollectionPriorModel -> Analysis -> M Result.

(** class Job *)
Record Job : Type := {
  job_analysis : Analysis;
  job_model : AbstractPriorModel;
  job_perturbation_model : AbstractPriorModel;
  job_search : NonLinearSearch;
  job_perturbed_search : NonLinearSearch
}.

(** Job.__init__ *)
Definition Job_init (analysis : Analysis) (model : AbstractPriorModel)
    (perturbation_model : AbstractPriorModel) (search : NonLinearSearch) : Job :=
  let paths_ := paths search in
  {| job_analysis := analysis;
     job_model := model;
     job_perturbation_model := perturbation_model;
     job_search := search;
     job_perturbed_search :=
       copy_with_paths search
         (Paths_init (name paths_)
                     (tag paths_ +:+ "[perturbed]")
                     (path_prefix paths_)
                     (remove_files paths_)) |}.

(** Job.perform *)
Definition perform (self : Job) : M JobResult :=
  let model : CollectionPriorModel := <["model" := job_model self]> ∅ in
  let! result_ := fit (job_search self) model (job_analysis self) in
  let perturbed_model : CollectionPriorModel :=
    <["model" := job_model self]>
      (<["perturbation" := job_perturbation_model self]> ∅) in
  let! perturbed_result_ :=
    fit (job_perturbed_search self) perturbed_model (job_analysis self) in
  ret (JobResult_init result_ perturbed_result_).

(** class Sensitivity *)
Record Sensitivity : Type := {
  instance : Instance;
  model : AbstractPriorModel;
  perturbation_model : AbstractPriorModel;
  image_function : ModelInstance -> Image;
  analysis_class : Image -> Analysis;
  search : NonLinearSearch;
  step_size : StepSize;
  number_of_cores : nat
}.

(** Sensitivity._lists *)
Definition _lists (self : Sensitivity) : exn + list (list Q) :=
  make_lists (prior_count (perturbation_model self)) (step_size self).

(** The body of the loop of [Sensitivity._labels]: the label of one vector. *)
Definition label (prior_tuples_ : list (string * Prior)) (list_ : list Q)
  : string :=
  let strings :=
    fold_left
      (fun strings '(value, (path, prior)) =>
         let value := value_for prior value in
         strings ++ [path +:+ "_" +:+ format_value value])
      (zip list_ prior_tuples_) [] in
  String.concat "_" strings.

(** Sensitivity._labels *)
Definition _labels (self : Sensitivity) : exn + list string :=
  lists ← _lists self;
  mret (map (label (prior_tuples (perturbation_model self))) lists).

(** Sensitivity._perturbation_instances *)
Definition _perturbation_instances (self : Sensitivity) : exn + list Instance :=
  lists ← _lists self;
  mret (map (instance_from_unit_vector (perturbation_model self)) lists).

(** Sensitivity._search_instance *)
Definition _search_instance (self : Sensitivity) (name_path : string)
  : NonLinearSearch :=
  let paths_ := paths (search self) in
  copy_with_paths (search self)
    (Paths_init name_path (tag paths_) (path_prefix paths_)
                (remove_files paths_)).

(** ["{}/{}/{}/{}".format(paths.name, paths.tag, paths.non_linear_tag, label)] *)
Definition name_path_of (self : Sensitivity) (label_ : string) : string :=
  let paths_ := paths (search self) in
  name paths_ +:+ "/" +:+ tag paths_ +:+ "/" +:+
    non_linear_tag (search self) +:+ "/" +:+ label_.

(** Sensitivity._searches *)
Definition _searches (self : Sensitivity) : exn + list NonLinearSearch :=
  labels ← _labels self;
  mret (map (fun label_ => _search_instance self (name_path_of self label_))
            labels).

(** Sensitivity._make_jobs *)
Definition _make_jobs (self : Sensitivity) : exn + list Job :=
  perturbation_instances ← _perturbation_instances self;
  searches ← _searches self;
  mret (zip_with
          (fun perturbation_instance search_ =>
             let instance_ : ModelInstance :=
               <["perturbation" := perturbation_instance]>
                 (<["model" := instance self]> ∅) in
             let image := image_function self instance_ in
             Job_init (analysis_class self image) (model self)
                      (perturbation_model self) search_)
          perturbation_instances searches).

(** [Process.run_jobs], the external parallel executor: what it yields for
    a sequence of jobs and a number of cores, or the exception it raises.
    It draws the jobs from the generator, so an exception of the generator
    surfaces before the executor has a job. *)
Variable run_jobs : list Job -> nat -> exn + list JobResult.

(** Sensitivity.run *)
Definition run (self : Sensitivity) : exn + list JobResult :=
  jobs ← _make_jobs self;
  yielded ← run_jobs jobs (number_of_cores self);
  mret (fold_left (fun results result_ => results ++ [result_]) yielded []).

(** *** Notions used by the statements *)

(** The job built for one vector of the grid. *)
Definition job_for (self : Sensitivity) (list_ : list Q) : Job :=
  Job_init
    (analysis_class self
       (image_function self
          (<["perturbation" :=
               instance_from_unit_vector (perturbation_model self) list_]>
             (<["model" := instance self]> ∅))))
    (model self) (perturbation_model self)
    (_search_instance self
       (name_path_of self
          (label (prior_tuples (perturbation_model self)) list_))).

(** [r] is what performing [j] returns, from some state of the world. *)
Definition performed_by (j : Job) (r : JobResult) : Prop :=
  exists w w', perform j w = (inr r, w').

(** The two output namespaces of a job: the paths of its baseline search
    and of its perturbed search. *)
Definition namespaces (j : Job) : list Paths :=
  [paths (job_search j); paths (job_perturbed_search j)].

(** The physical values which enter the label of a vector. *)
Definition physical_values (prior_tuples_ : list (string * Prior))
    (list_ : list Q) : list Value :=
  zip_with (fun value '(_, prior) => value_for prior value)
           list_ prior_tuples_.

(** The tokens ["{path}_{physical_value}"] of a vector, in the order of
    the dimensions. *)
Definition tokens (prior_tuples_ : list (string * Prior))
    (list_ : list Q) : list string :=
  zip_with (fun value '(path, prior) =>
              path +:+ "_" +:+ format_value (value_for prior value))
           list_ prior_tuples_.

(** The label as the specification words it: the tokens joined by
    underscores. *)
Definition label_spec (prior_tuples_ : list (string * Prior))
    (list_ : list Q) : string :=
  String.concat "_" (tokens prior_tuples_ list_).

End Sensitivity.

(** ** A small configuration on which the code is run *)

Module Demo.

(** Physical values are natural numbers, rendered in decimal; an instance
    is the unit vector it was made from; the image of an instance is the
    sum of its perturbation; an analysis is its image. *)
Definition format_N (v : N) : string := pretty v.

(** A prior which scales the unit interval to [0, 100]. *)
Definition percent : Prior := {| value_for := fun u => Z.to_N (Qfloor (u * 100)) |}.

(** A prior whose lower and upper limits are both 1. *)
Definition constant : Prior := {| value_for := fun _ : Q => 1%N |}.

Definition base : @AbstractPriorModel N (list Q) :=
  {| prior_count := 0; prior_tuples := [];
     instance_from_unit_vector := fun _ => [] |}.

Definition perturbation (priors : list (string * Prior))
  : @AbstractPriorModel N (list Q) :=
  {| prior_count := length priors; prior_tuples := priors;
     instance_from_unit_vector := fun vector => vector |}.

Definition image_of (instance_ : gmap string (list Q)) : Q :=
  foldr Qplus 0%Q (default [] (instance_ !! "perturbation")).

Definition template : NonLinearSearch :=
  {| paths := Paths_init "phase" "tag" "prefix" true;
     non_linear_tag := "emcee";
     settings := 0 |}.

(** A fit which records the namespace it writes to and whose likelihood
    is the image times the number of components of the model. *)
Definition fit (search_ : NonLinearSearch)
    (model_ : gmap string (@AbstractPriorModel N (list Q))) (analysis : Q)
  : @M (list Paths) Result :=
  fun world =>
    (inr {| log_likelihood := Qred (analysis * inject_Z (Z.of_nat (size model_))) |},
     world ++ [paths search_]).

Definition sensitivity (priors : list (string * Prior)) (step : StepSize)
    (cores : nat) : Sensitivity :=
  {| instance := [];
     model := base;
     perturbation_model := perturbation priors;
     image_function := image_of;
     analysis_class := fun image => image;
     search := template;
     step_size := step;
     number_of_cores := cores |}.

(** What a worker process returns for a job: the job performed in a world
    of its own. *)
Definition worker (job : Job) : exn + JobResult := fst (perform fit job []).

(** An executor which yields the results in the order of submission, and
    one which yields them in the reverse order.  Neither looks at the
    number of cores. *)
Definition in_order (jobs : list Job) (cores : nat) : exn + list JobResult :=
  mapM worker jobs.

Definition reversed (jobs : list Job) (cores : nat) : exn + list JobResult :=
  reverse <$> mapM worker jobs.

End Demo.

(** * The rest of the sensitivity code, the pipeline, the aggregator and the
    path utilities *)

(** ** Python exceptions and indexing *)

Inductive pyexn : Type :=
| PipelineException
| IndexError
| AttributeError
| FileExistsError
| OSError.

#[global] Instance pyexn_ret : MRet (sum pyexn) := fun _ x => inr x.
#[global] Instance pyexn_bind : MBind (sum pyexn) :=
  fun _ _ f m => match m with inl e => inl e | inr x => f x end.
#[global] Instance pyexn_fmap : FMap (sum pyexn) :=
  fun _ _ f m => match m with inl e => inl e | inr x => inr (f x) end.

(** [l[item]] for an integer [item]: a negative index counts from the end,
    an index out of range raises [IndexError]. *)
Definition py_index {A : Type} (l : list A) (item : Z) : pyexn + A :=
  let n := Z.of_nat (length l) in
  let i := if (item <? 0)%Z then (item + n)%Z else item in
  if ((i <? 0) || (n <=? i))%Z then inl IndexError
  else match l !! Z.to_nat i with
       | Some x => inr x
       | None => inl IndexError
       end.

(** Computations on the file system, which may raise. *)
Definition IO (World A : Type) : Type := World -> (pyexn + A) * World.

Definition io_ret {World A} (x : A) : IO World A := fun w => (inr x, w).

Definition io_bind {World A B} (m : IO World A) (f : A -> IO World B)
  : IO World B :=
  fun w =>
    match m w with
    | (inl e, w') => (inl e, w')
    | (inr x, w') => f x w'
    end.


(** ** autofit/tools/pipeline.py *)

(** class ResultsCollection *)
Module ResultsCollection.

Record t (R : Type) : Type := {
  result_list : list R;
  result_dict : gmap string R
}.
Arguments result_list {R} _.
Arguments result_dict {R} _.

Section Methods.

Context {R : Type}.

(** ResultsCollection.__init__ *)
Definition init : t R := {| result_list := []; result_dict := ∅ |}.

(** ResultsCollection.last; [None] is Python's [None]. *)
Definition last (self : t R) : pyexn + option R :=
  if (0 <? length (result_list self))%nat
  then Some <$> py_index (result_list self) (-1)
  else inr None.

(** ResultsCollection.first *)
Definition first (self : t R) : pyexn + option R :=
  if (0 <? length (result_list self))%nat
  then Some <$> py_index (result_list self) 0
  else inr None.

(** ResultsCollection.add *)
Definition add (self : t R) (phase_name : string) (result_ : R)
  : pyexn + t R :=
  match result_dict self !! phase_name with
  | Some _ => inl PipelineException
  | None =>
      inr {| result_list := result_list self ++ [result_];
             result_dict := <[phase_name := result_]> (result_dict self) |}
  end.

(** ResultsCollection.__getitem__ *)
Definition __getitem__ (self : t R) (item : Z) : pyexn + R :=
  py_index (result_list self) item.

(** ResultsCollection.__len__ *)
Definition __len__ (self : t R) : nat := size (result_dict self).

(** ResultsCollection.from_phase: the [KeyError] of the dictionary is
    turned into a [PipelineException]. *)
Definition from_phase (self : t R) (phase_name : string) : pyexn + R :=
  match result_dict self !! phase_name with
  | Some result_ => inr result_
  | None => inl PipelineException
  end.

(** The collections which the methods can build: [init] followed by
    successful calls of [add]. *)
Inductive built : t R -> Prop :=
| built_init : built init
| built_add self phase_name result_ self' :
    built self -> add self phase_name result_ = inr self' -> built self'.

End Methods.

End ResultsCollection.

(** A phase, as far as the pipeline reads it. *)
Record Phase (Optimizer : Type) : Type := {
  phase_name : string;
  phase_path : string;
  optimizer : Optimizer
}.
Arguments phase_name {Optimizer} _.
Arguments phase_path {Optimizer} _.
Arguments optimizer {Optimizer} _.

(** class Pipeline *)
Module Pipeline.

Record t (Optimizer : Type) : Type := {
  pipeline_name : string;
  phases : list (Phase Optimizer)
}.
Arguments pipeline_name {Optimizer} _.
Arguments phases {Optimizer} _.

Section Methods.

Context {Optimizer R World : Type}.

(** Pipeline.__init__ *)
Definition init (pipeline_name_ : string) (phases_ : list (Phase Optimizer))
  : pyexn + t Optimizer :=
  let phase_names := map phase_name phases_ in
  if (size (list_to_set phase_names : gset string) <? length phase_names)%nat
  then inl PipelineException
  else inr {| pipeline_name := pipeline_name_; phases := phases_ |}.

(** Pipeline.__add__ *)
Definition __add__ (self other : t Optimizer) : pyexn + t Optimizer :=
  init (pipeline_name self +:+ " + " +:+ pipeline_name other)
       (phases self ++ phases other).

(** [conf.instance.output_path], [pickle.dumps] and the writing of a file
    ([open(path, "w+")] followed by [f.write(content)]). *)
Variable output_path : string.
Variable pickle_dumps : Optimizer -> string.
Variable write_file : string -> string -> IO World unit.






End Methods.

End Pipeline.

(** ** autofit/aggregator.py *)

Module Aggregator.

(** [sep in s] for a separator of one character. *)
Fixpoint contains_char (sep : ascii) (s : string) : bool :=
  match s with
  | EmptyString => false
  | String c s' => Ascii.eqb c sep || contains_char sep s'
  end.

(** [s.split(sep)] for a separator of one character. *)
Fixpoint split (sep : ascii) (s : string) : list string :=
  match s with
  | EmptyString => [""]
  | String c s' =>
      if Ascii.eqb c sep then "" :: split sep s'
      else match split sep s' with
           | [] => [String c ""]
           | word :: words => String c word :: words
           end
  end.

(** The pairs which PhaseOutput.__init__ reads from the text of the
    metadata file: the lines with an ["="], split at every ["="]. *)
Definition metadata_pairs (text : string) : list (list string) :=
  map (split "=")
      (List.filter (contains_char "=") (split "010" text)).

(** [{pair[0]: pair[1] for pair in pairs}]: a later pair replaces an
    earlier pair of the same key. *)
Fixpoint dict_of_pairs (pairs : list (list string))
    (dict : gmap string string) : pyexn + gmap string string :=
  match pairs with
  | [] => inr dict
  | line_pair :: pairs' =>
      key ← py_index line_pair 0;
      value ← py_index line_pair 1;
      dict_of_pairs pairs' (<[key := value]> dict)
  end.

(** The attributes which PhaseOutput.__init__ takes from the text of the
    metadata file. *)
Definition metadata (text : string) : pyexn + gmap string string :=
  dict_of_pairs (metadata_pairs text) ∅.

(** An attribute which the class does not define, looked up in the
    attributes of the instance. *)
Definition instance_attribute (attributes : gmap string string)
    (attribute : string) : pyexn + string :=
  match attributes !! attribute with
  | Some value => inr value
  | None => inl AttributeError
  end.


Section Predicates.

(** Phase outputs and the values of their attributes; [getattr(phase,
    attribute)] and [value in other] are Python's. *)
Context {PhaseOutput Value : Type} `{EqDecision Value}.
Variable getattr : PhaseOutput -> string -> pyexn + Value.
Variable py_in : Value -> Value -> pyexn + bool.

(** The classes ContainsPredicate, EqualityPredicate and NotPredicate. *)
Inductive Predicate : Type :=
| ContainsPredicate (attribute : string) (value : Value)
| EqualityPredicate (attribute : string) (value : Value)
| NotPredicate (predicate : Predicate).

(** The [__call__] of the three classes. *)
Fixpoint __call__ (self : Predicate) (phase : PhaseOutput) : pyexn + bool :=
  match self with
  | ContainsPredicate attribute value =>
      other ← getattr phase attribute; py_in value other
  | EqualityPredicate attribute value =>
      other ← getattr phase attribute; mret (bool_decide (other = value))
  | NotPredicate predicate =>
      negb <$> __call__ predicate phase
  end.

(** AbstractPredicate.__invert__ *)
Definition __invert__ (self : Predicate) : Predicate := NotPredicate self.

(** AttributePredicate.__eq__, .__ne__ and .contains, for the attribute
    [attribute]. *)
Definition __eq__ (attribute : string) (other : Value) : Predicate :=
  EqualityPredicate attribute other.

Definition __ne__ (attribute : string) (other : Value) : Predicate :=
  __invert__ (__eq__ attribute other).

Definition contains (attribute : string) (value : Value) : Predicate :=
  ContainsPredicate attribute value.

(** AbstractAggregator.filter chains one lazy [filter] per predicate and
    makes a list of the last: every phase in turn is tested by the
    predicates in their order, until one of them is false. *)
Fixpoint passes (predicates : list Predicate) (phase : PhaseOutput)
  : pyexn + bool :=
  match predicates with
  | [] => inr true
  | predicate :: predicates' =>
      keep ← __call__ predicate phase;
      if keep : bool then passes predicates' phase else inr false
  end.

(** AbstractAggregator.filter, on the phases of the aggregator. *)
Fixpoint filter (predicates : list Predicate) (phases : list PhaseOutput)
  : pyexn + list PhaseOutput :=
  match phases with
  | [] => inr []
  | phase :: phases' =>
      keep ← passes predicates phase;
      kept ← filter predicates phases';
      mret (if keep : bool then phase :: kept else kept)
  end.

(** AbstractAggregator.values *)
Definition values (phases : list PhaseOutput) (item : string)
  : pyexn + list Value :=
  mapM (fun phase => getattr phase item) phases.

(** AbstractAggregator.__getitem__ for an index and AbstractAggregator.__len__ *)
Definition __getitem__ (phases : list PhaseOutput) (item : Z)
  : pyexn + PhaseOutput :=
  py_index phases item.

Definition __len__ (phases : list PhaseOutput) : nat := length phases.

(** [group_dict[key].append(phase)] on a [defaultdict(list)], whose keys
    stay in the order in which they were first used. *)
Fixpoint append_to_group (key : Value) (phase : PhaseOutput)
    (group_dict : list (Value * list PhaseOutput))
  : list (Value * list PhaseOutput) :=
  match group_dict with
  | [] => [(key, [phase])]
  | (key', group) :: group_dict' =>
      if decide (key' = key) then (key', group ++ [phase]) :: group_dict'
      else (key', group) :: append_to_group key phase group_dict'
  end.

(** The loop of AbstractAggregator.group_by. *)
Fixpoint group_loop (field : string) (phases : list PhaseOutput)
    (group_dict : list (Value * list PhaseOutput))
  : pyexn + list (Value * list PhaseOutput) :=
  match phases with
  | [] => inr group_dict
  | phase :: phases' =>
      key ← getattr phase field;
      group_loop field phases' (append_to_group key phase group_dict)
  end.

(** AbstractAggregator.group_by: the groups of the AggregatorGroup. *)
Definition group_by (phases : list PhaseOutput) (field : string)
  : pyexn + list (list PhaseOutput) :=
  group_dict ← group_loop field phases [];
  mret (map snd group_dict).

(** What the loop of [group_by] keeps true of the dictionary: the keys are
    pairwise different, no group is empty and the phases of a group have
    the key of the group as their value of the field. *)
Definition groups_keyed (field : string)
    (group_dict : list (Value * list PhaseOutput)) : Prop :=
  NoDup (map fst group_dict)
  /\ Forall (fun entry =>
               snd entry <> []
               /\ Forall (fun phase => getattr phase field = inr (fst entry))
                         (snd entry))
            group_dict.

(** AggregatorGroup.filter *)
Definition group_filter (groups : list (list PhaseOutput))
    (predicates : list Predicate) : pyexn + list (list PhaseOutput) :=
  mapM (filter predicates) groups.

End Predicates.

End Aggregator.

(** ** autofit/tools/path_util.py *)

Section PathUtil.

Context {World : Type}.

(** [os.makedirs] *)
Variable makedirs : string -> IO World unit.

(** make_and_return_path_from_path_and_folder_names *)
Fixpoint make_and_return_path_from_path_and_folder_names (path : string)
    (folder_names : list string) : IO World string :=
  match folder_names with
  | [] => io_ret path
  | folder_name :: folder_names' =>
      let path := path +:+ (folder_name +:+ "/") in
      fun w =>
        match makedirs path w with
        | (inl FileExistsError, w') =>
            make_and_return_path_from_path_and_folder_names path
              folder_names' w'
        | (inl e, w') => (inl e, w')
        | (inr _, w') =>
            make_and_return_path_from_path_and_folder_names path
              folder_names' w'
        end
  end.

End PathUtil.

(** ** Small configurations on which the rest of the code is run *)

Module MoreDemo.

(** A fit which raises whenever the model has a perturbation. *)
Definition failing_fit (search_ : NonLinearSearch)
    (model_ : gmap string (@AbstractPriorModel N (list Q))) (analysis : Q)
  : @M (list Paths) Result :=
  fun world =>
    match model_ !! "perturbation" with
    | Some _ => (inl FitException, world ++ [paths search_])
    | None => Demo.fit search_ model_ analysis world
    end.

(** A collection with the results of two phases. *)
Definition two_results : ResultsCollection.t nat :=
  {| ResultsCollection.result_list := [10; 20];
     ResultsCollection.result_dict := <["second" := 20]> {["first" := 10]} |}.

(** Two phases whose optimizers are numbers, and a third with the name of
    the first. *)
Definition phase1 : Phase nat :=
  {| phase_name := "phase1"; phase_path := "run/"; optimizer := 1 |}.
Definition phase2 : Phase nat :=
  {| phase_name := "phase2"; phase_path := "run/"; optimizer := 2 |}.
Definition phase1_again : Phase nat :=
  {| phase_name := "phase1"; phase_path := "other/"; optimizer := 3 |}.





(** Phase outputs are the attributes read from their metadata; [in] is
    the test for a substring. *)
Definition getattr (phase : gmap string string) (attribute : string)
  : pyexn + string :=
  Aggregator.instance_attribute phase attribute.

Definition py_in (value other : string) : pyexn + bool :=
  inr (if String.index 0 value other then true else false).

Definition output (pipeline_ dataset_ : string) : gmap string string :=
  <["dataset_name" := dataset_]> (<["phase" := "phase1"]>
    {["pipeline" := pipeline_]}).

Definition outputs : list (gmap string string) :=
  [output "lens" "a"; output "source" "a"; output "lens" "b"].

(** Directories: [makedirs] raises [FileExistsError] for one which is
    there. *)
Definition makedirs (path : string) : IO (list string) unit :=
  fun directories =>
    if bool_decide (path ∈ directories)
    then (inl FileExistsError, directories)
    else (inr tt, directories ++ [path]).

End MoreDemo.

(** * Properties *)

(** ** The grid *)

Module GridFacts.
Import Grid.

Lemma valid_step_spec (s : Q) : valid_step s = true <-> (0 < s /\ s <= 1)%Q.
Proof.
  unfold valid_step. rewrite andb_true_iff, negb_true_iff, Qle_bool_iff.
  split; intros [H1 H2]; split; try assumption.
  - destruct (Qlt_le_dec 0 s) as [Hlt | Hle]; [assumption |].
    apply Qle_bool_iff in Hle. congruence.
  - destruct (Qle_bool s 0) eqn:E; [| reflexivity].
    apply Qle_bool_iff in E. exfalso. exact (Qlt_not_le _ _ H1 E).
Qed.

Lemma length_axis_points (s : Q) : length (axis_points s) = steps_per_axis s.
Proof. unfold axis_points. by rewrite length_map, length_seq. Qed.

Lemma elem_of_axis_points (s x : Q) :
  x ∈ axis_points s <->
  exists k : nat, 1 <= k <= steps_per_axis s /\ x = point s k.
Proof.
  unfold axis_points. rewrite list_elem_of_fmap. split.
  - intros (k & -> & Hk). apply elem_of_seq in Hk. exists k. split; [lia | done].
  - intros (k & Hk & ->). exists k. split; [done |]. apply elem_of_seq. lia.
Qed.

Lemma point_value (s : Q) (k : nat) :
  (point s k == inject_Z (Z.of_nat k) * s)%Q.
Proof. unfold point. apply Qred_correct. Qed.

Lemma point_lt (s : Q) (j k : nat) :
  (0 < s)%Q -> j < k -> (point s j < point s k)%Q.
Proof.
  intros Hs Hjk. unfold point. rewrite !Qred_correct.
  apply Qmult_lt_compat_r; [assumption |].
  rewrite <- Zlt_Qlt. lia.
Qed.

Lemma axis_points_sorted (s : Q) :
  (0 < s)%Q -> StronglySorted Qlt (axis_points s).
Proof.
  intros Hs. unfold axis_points. generalize 1 as start.
  induction (steps_per_axis s) as [| n IH]; intros start; simpl.
  - constructor.
  - constructor; [apply IH |].
    apply Forall_forall. intros x Hx.
    apply list_elem_of_fmap in Hx as (k & -> & Hk).
    apply elem_of_seq in Hk. apply point_lt; [assumption | lia].
Qed.

Lemma length_product (axes : list (list Q)) :
  length (product axes) = foldr (fun axis n => length axis * n) 1 axes.
Proof.
  induction axes as [| axis rest IH]; simpl; [reflexivity |].
  rewrite <- IH. clear IH.
  induction axis as [| x axis IHa]; simpl; [reflexivity |].
  by rewrite length_app, length_map, IHa.
Qed.

Lemma elem_of_product (axes : list (list Q)) (c : list Q) :
  c ∈ product axes <-> Forall2 (fun x axis => x ∈ axis) c axes.
Proof.
  revert c. induction axes as [| axis rest IH]; intros c; simpl.
  - rewrite list_elem_of_singleton. split.
    + intros ->. constructor.
    + intros H. by inversion H.
  - rewrite list_elem_of_In, in_flat_map. split.
    + intros (x & Hx & Hc). apply list_elem_of_In in Hx, Hc.
      apply list_elem_of_fmap in Hc as (c' & -> & Hc').
      constructor; [assumption | by apply IH].
    + intros H. inversion H as [| x axis' c' rest' Hx Hc']; subst.
      exists x. rewrite <- !list_elem_of_In. split; [assumption |].
      apply list_elem_of_fmap. exists c'. split; [reflexivity | by apply IH].
Qed.

Lemma cons_sorted (x : Q) (l : list (list Q)) :
  StronglySorted lex_lt l -> StronglySorted lex_lt (map (cons x) l).
Proof.
  induction 1 as [| c l Hl IH Hc]; simpl; constructor; [assumption |].
  apply Forall_forall. intros c' Hc'.
  apply list_elem_of_fmap in Hc' as (d & -> & Hd).
  apply lex_lt_tail. rewrite Forall_forall in Hc. by apply Hc.
Qed.

Lemma product_sorted (axes : list (list Q)) :
  Forall (StronglySorted Qlt) axes -> StronglySorted lex_lt (product axes).
Proof.
  induction 1 as [| axis rest Haxis Hrest IH]; simpl.
  - repeat constructor.
  - induction Haxis as [| x axis Haxis IHa Hx]; simpl; [constructor |].
    apply StronglySorted_app. split_and!; [| by apply cons_sorted | assumption].
    intros c1 c2 Hc1 Hc2.
    apply list_elem_of_fmap in Hc1 as (d1 & -> & Hd1).
    apply list_elem_of_In, in_flat_map in Hc2 as (y & Hy & Hc2).
    apply list_elem_of_In in Hy, Hc2.
    apply list_elem_of_fmap in Hc2 as (d2 & -> & Hd2).
    apply lex_lt_head. rewrite Forall_forall in Hx. by apply Hx.
Qed.

Lemma grid_size_replicate (D : nat) (s : Q) :
  grid_size (replicate D s) = steps_per_axis s ^ D.
Proof. induction D as [| D IH]; simpl; [reflexivity |]. by rewrite <- IH. Qed.

Lemma length_grid (ss : list Q) :
  length (product (map axis_points ss)) = grid_size ss.
Proof.
  rewrite length_product. unfold grid_size.
  induction ss as [| s ss IH]; simpl; [reflexivity |].
  by rewrite IH, length_axis_points.
Qed.

End GridFacts.

(** C2 (with [make_lists] modelled from the specification).  For a valid
    step-size configuration (a uniform step, or one step per dimension, each
    in (0, 1]) the grid enumerator returns the cartesian product of the
    per-dimension points [s_d, 2 s_d, ..., floor(1/s_d) s_d]: the number of
    vectors is the product of the [floor(1/s_d)], which is [floor(1/s)^D] for
    a uniform step; a vector belongs to the grid exactly when it has one such
    point per dimension, so every vector has length [D]; and the vectors
    are strictly increasing in the lexicographic order whose most
    significant component is the first, so the first dimension varies
    slowest.  For [D = 2] and the uniform step 0.5 the grid is
    (0.5, 0.5), (0.5, 1), (1, 0.5), (1, 1). *)
Theorem make_lists_cartesian_product (D : nat) (step : StepSize) :
  length (Grid.step_sizes D step) = D ->
  Forall (fun s => (0 < s /\ s <= 1)%Q) (Grid.step_sizes D step) ->
  exists lists,
    make_lists D step = inr lists
    /\ length lists = Grid.grid_size (Grid.step_sizes D step)
    /\ (forall s, step = Uniform s ->
        length lists = Grid.steps_per_axis s ^ D)
    /\ (forall c,
          c ∈ lists <->
          Forall2 (fun x s =>
                     exists k : nat,
                       1 <= k <= Grid.steps_per_axis s /\ x = Grid.point s k)
                  c (Grid.step_sizes D step))
    /\ (forall c, c ∈ lists -> length c = D)
    /\ StronglySorted lex_lt lists
    /\ make_lists 2 (Uniform (1 # 2)) =
       inr [[1 # 2; 1 # 2]; [1 # 2; 1]; [1; 1 # 2]; [1; 1]]%Q.
Proof.
  intros Hlen Hvalid. unfold make_lists.
  set (ss := Grid.step_sizes D step) in *.
  assert (Hb : forallb Grid.valid_step ss = true).
  { apply forallb_forall. intros s Hs. apply GridFacts.valid_step_spec.
    rewrite Forall_forall in Hvalid. by apply Hvalid, list_elem_of_In. }
  rewrite Hlen, Nat.eqb_refl, Hb. simpl.
  assert (Hmem : forall c,
    c ∈ Grid.product (map Grid.axis_points ss) <->
    Forall2 (fun x s =>
               exists k : nat,
                 1 <= k <= Grid.steps_per_axis s /\ x = Grid.point s k) c ss).
  { intros c. rewrite GridFacts.elem_of_product, Forall2_fmap_r.
    split; intros H; (eapply Forall2_impl; [exact H |]);
      intros x s; apply GridFacts.elem_of_axis_points. }
  eexists. split; [reflexivity |]. split_and!.
  - apply GridFacts.length_grid.
  - intros s ->. rewrite GridFacts.length_grid. subst ss. simpl.
    apply GridFacts.grid_size_replicate.
  - exact Hmem.
  - intros c Hc. apply Hmem in Hc. apply Forall2_length in Hc. congruence.
  - apply GridFacts.product_sorted. apply Forall_fmap.
    eapply Forall_impl; [exact Hvalid |]. intros s [Hs _]. simpl.
    by apply GridFacts.axis_points_sorted.
  - reflexivity.
Qed.

Lemma make_lists_cartesian_product_witness :
  exists lists,
    make_lists 2 (PerDimension [1 # 2; 1 # 3]%Q) = inr lists
    /\ length lists = 6
    /\ StronglySorted lex_lt lists.
Proof.
  destruct (make_lists_cartesian_product 2 (PerDimension [1 # 2; 1 # 3]%Q))
    as (lists & Heq & Hlen & _ & _ & _ & Hsorted & _).
  - reflexivity.
  - repeat constructor; discriminate.
  - exists lists. split; [exact Heq |]. split; [exact Hlen | exact Hsorted].
Defined.

(** ** Strings *)

Lemma append_nil (s : string) : "" +:+ s = s.
Proof. reflexivity. Qed.

Lemma append_cons (c : ascii) (s1 s2 : string) :
  String c s1 +:+ s2 = String c (s1 +:+ s2).
Proof. reflexivity. Qed.

Lemma append_assoc (s1 s2 s3 : string) : (s1 +:+ s2) +:+ s3 = s1 +:+ s2 +:+ s3.
Proof.
  induction s1 as [| c s1 IH]; [reflexivity |].
  by rewrite !append_cons, IH.
Qed.

Lemma append_length (s1 s2 : string) :
  String.length (s1 +:+ s2) = String.length s1 + String.length s2.
Proof.
  induction s1 as [| c s1 IH]; [reflexivity |].
  rewrite append_cons. simpl. by rewrite IH.
Qed.

Lemma append_suffix_neq (s suffix : string) : suffix <> "" -> s <> s +:+ suffix.
Proof.
  intros Hne Heq. apply (f_equal String.length) in Heq.
  rewrite append_length in Heq. destruct suffix; [done | simpl in Heq; lia].
Qed.

(** A string without underscore which is followed either by nothing or by
    an underscore is determined by the whole. *)
Lemma underscore_free_split (s1 s2 r1 r2 : string) :
  underscore_free s1 = true -> underscore_free s2 = true ->
  (r1 = "" \/ exists t, r1 = "_" +:+ t) ->
  (r2 = "" \/ exists t, r2 = "_" +:+ t) ->
  s1 +:+ r1 = s2 +:+ r2 -> s1 = s2 /\ r1 = r2.
Proof.
  revert s2. induction s1 as [| c1 s1 IH]; intros [| c2 s2] H1 H2 Hr1 Hr2 Heq.
  - done.
  - exfalso. rewrite append_nil, append_cons in Heq. simpl in H2.
    apply andb_true_iff in H2 as [Hc _].
    destruct Hr1 as [-> | [t ->]]; [done |].
    rewrite append_cons in Heq. injection Heq as <- _. done.
  - exfalso. rewrite append_nil, append_cons in Heq. simpl in H1.
    apply andb_true_iff in H1 as [Hc _].
    destruct Hr2 as [-> | [t ->]]; [done |].
    rewrite append_cons in Heq. injection Heq as -> _. done.
  - rewrite !append_cons in Heq. simpl in H1, H2. injection Heq as -> Heq.
    apply andb_true_iff in H1 as [_ H1]. apply andb_true_iff in H2 as [_ H2].
    destruct (IH s2 H1 H2 Hr1 Hr2 Heq) as [-> ->]. done.
Qed.

(** ** The job result *)

(** C4.  The log-likelihood difference of a job result made of a baseline
    result and a perturbed result is the perturbed log likelihood minus the
    baseline log likelihood; for the baseline -12.5 and the perturbed -9.0
    it is 3.5. *)
Theorem log_likelihood_difference_perturbed_minus_baseline
    (baseline perturbed : Result) :
  log_likelihood_difference (JobResult_init baseline perturbed) =
    (log_likelihood perturbed - log_likelihood baseline)%Q
  /\ log_likelihood_difference
       (JobResult_init {| log_likelihood := - (25 # 2) |}
                       {| log_likelihood := - (9 # 1) |}) = (7 # 2)%Q
  /\ (log_likelihood_difference
        (JobResult_init {| log_likelihood := -12.5 |}
                        {| log_likelihood := -9.0 |}) == 3.5)%Q.
Proof. split; [reflexivity |]. split; reflexivity. Qed.

(** ** Labels *)

Section LabelFacts.

Context {Value : Type}.
Variable format_value : Value -> string.

Abbreviation Prior := (@Prior Value).

Lemma label_loop (pts : list (string * Prior)) (c : list Q) (acc : list string) :
  fold_left
    (fun strings '(value, (path, prior)) =>
       let value := value_for prior value in
       strings ++ [path +:+ "_" +:+ format_value value])
    (zip c pts) acc
  = acc ++ tokens format_value pts c.
Proof.
  revert pts acc. induction c as [| v c IH]; intros [| [path prior] pts] acc;
    simpl; try by rewrite app_nil_r.
  rewrite IH, <- app_assoc. reflexivity.
Qed.

Lemma label_eq_spec (pts : list (string * Prior)) (c : list Q) :
  label format_value pts c = label_spec format_value pts c.
Proof. unfold label, label_spec. by rewrite label_loop. Qed.

Lemma length_tokens (pts : list (string * Prior)) (c : list Q) :
  length (tokens format_value pts c) = min (length c) (length pts).
Proof. unfold tokens. apply length_zip_with. Qed.

Lemma tokens_take (pts : list (string * Prior)) (c : list Q) (n : nat) :
  min (length c) (length pts) <= n ->
  tokens format_value (take n pts) (take n c) = tokens format_value pts c.
Proof.
  unfold tokens. revert pts c.
  induction n as [| n IH]; intros [| pt pts] [| v c] Hn;
    simpl in *; try reflexivity; try lia.
  f_equal. apply IH. lia.
Qed.

Lemma concat_cons (t : string) (ts : list string) :
  String.concat "_" (t :: ts) = t +:+ rest ts.
Proof.
  destruct ts as [| t' ts]; simpl.
  - induction t as [| c t IH]; [reflexivity |].
    by rewrite append_cons, <- IH.
  - reflexivity.
Qed.

Lemma rest_shape (ts : list string) :
  rest ts = "" \/ exists t, rest ts = "_" +:+ t.
Proof. destruct ts; [by left | right; by eexists]. Qed.

Lemma rest_inj (ts1 ts2 : list string) :
  rest ts1 = rest ts2 -> String.concat "_" ts1 = String.concat "_" ts2.
Proof.
  destruct ts1, ts2; try done.
  unfold rest. intros H. by apply (inj (String.app "_")) in H.
Qed.

Lemma tokens_cons path prior (pts : list (string * Prior)) v (c : list Q) :
  tokens format_value ((path, prior) :: pts) (v :: c) =
  (path +:+ "_" +:+ format_value (value_for prior v))
    :: tokens format_value pts c.
Proof. reflexivity. Qed.

Lemma physical_values_cons path prior (pts : list (string * Prior)) v
    (c : list Q) :
  physical_values ((path, prior) :: pts) (v :: c) =
  value_for prior v :: physical_values pts c.
Proof. reflexivity. Qed.

Lemma joined_tokens_inj (pts : list (string * Prior)) (c1 c2 : list Q) :
  Inj (=) (=) format_value ->
  (forall v, underscore_free (format_value v) = true) ->
  String.concat "_" (tokens format_value pts c1)
    = String.concat "_" (tokens format_value pts c2) ->
  physical_values pts c1 = physical_values pts c2.
Proof.
  intros Hinj Hfree. revert c1 c2.
  induction pts as [| [path prior] pts IH]; intros c1 c2.
  { by destruct c1, c2. }
  assert (Hne : forall v c,
    "" <> String.concat "_" (tokens format_value ((path, prior) :: pts) (v :: c))).
  { intros v c Heq. rewrite tokens_cons, concat_cons in Heq. apply (f_equal String.length) in Heq.
    rewrite !append_length in Heq. simpl in Heq. lia. }
  destruct c1 as [| v1 c1], c2 as [| v2 c2]; try done.
  - intros Heq. by apply Hne in Heq.
  - intros Heq. symmetry in Heq. by apply Hne in Heq.
  - rewrite !tokens_cons, !physical_values_cons, !concat_cons.
    rewrite !append_assoc. intros Heq.
    apply (inj (String.app path)), (inj (String.app "_")) in Heq.
    apply underscore_free_split in Heq as [Hv Hrest];
      [| apply Hfree | apply Hfree | apply rest_shape | apply rest_shape].
    apply Hinj in Hv. apply rest_inj, IH in Hrest.
    by rewrite Hv, Hrest.
Qed.

(** C6.  The label of a vector is the underscore-join, in the order of the
    dimensions, of the tokens ["{path}_{physical_value}"], where the
    physical value is the prior's [value_for] of the component; the same
    vector and prior tuples give the same label; and, the rendering of
    physical values being injective and free of underscores (as the
    rendering of Python floats is), two vectors whose physical values
    differ have different labels. *)
Theorem label_joins_tokens (pts : list (string * Prior)) :
  (forall c,
     label format_value pts c =
     String.concat "_"
       (zip_with (fun value '(path, prior) =>
                    path +:+ "_" +:+ format_value (value_for prior value))
                 c pts))
  /\ (forall c1 c2, c1 = c2 -> label format_value pts c1 = label format_value pts c2)
  /\ (Inj (=) (=) format_value ->
      (forall v, underscore_free (format_value v) = true) ->
      forall c1 c2,
        physical_values pts c1 <> physical_values pts c2 ->
        label format_value pts c1 <> label format_value pts c2).
Proof.
  split_and!.
  - intros c. apply label_eq_spec.
  - by intros c1 c2 ->.
  - intros Hinj Hfree c1 c2 Hne Heq. apply Hne.
    rewrite !label_eq_spec in Heq. by apply joined_tokens_inj.
Qed.

(** C9.  Whatever the lengths of the vector and of the prior tuples, the
    label is built without an error from the first
    [min (length vector) (length prior tuples)] pairs: it has that many
    tokens, and the components or prior tuples in excess do not enter
    it. *)
Theorem label_ignores_excess (pts : list (string * Prior)) (c : list Q) :
  let n := min (length c) (length pts) in
  label format_value pts c = String.concat "_" (tokens format_value pts c)
  /\ length (tokens format_value pts c) = n
  /\ label format_value pts c = label format_value (take n pts) (take n c).
Proof.
  intros n. split_and!.
  - apply label_eq_spec.
  - apply length_tokens.
  - rewrite !label_eq_spec. unfold label_spec. by rewrite tokens_take.
Qed.

End LabelFacts.

(** ** Jobs and runs *)

Section RunFacts.

Context {Value Instance Image Analysis World : Type}.
Variable format_value : Value -> string.

Abbreviation Model := (@AbstractPriorModel Value Instance).
Abbreviation Job' := (@Job Value Instance Analysis).
Abbreviation Sensitivity' := (@Sensitivity Value Instance Image Analysis).

Variable fit :
  NonLinearSearch -> gmap string Model -> Analysis -> @M World Result.
Variable run_jobs : list Job' -> nat -> exn + list JobResult.

Implicit Types (self : Sensitivity') (j : Job').

Lemma make_jobs_spec self :
  _make_jobs format_value self
  = map (job_for format_value self) <$> _lists self.
Proof.
  unfold _make_jobs, _searches, _labels, _perturbation_instances.
  destruct (_lists self) as [e | lists]; [reflexivity |]. simpl. f_equal.
  induction lists as [| c lists IH]; [reflexivity |]. simpl. by rewrite IH.
Qed.

Lemma labels_spec self :
  _labels format_value self
  = map (label format_value (prior_tuples (perturbation_model self)))
      <$> _lists self.
Proof. unfold _labels. by destruct (_lists self). Qed.

Lemma results_loop (yielded acc : list JobResult) :
  fold_left (fun results result_ => results ++ [result_]) yielded acc
  = acc ++ yielded.
Proof.
  revert acc. induction yielded as [| r yielded IH]; intros acc; simpl.
  - by rewrite app_nil_r.
  - by rewrite IH, <- app_assoc.
Qed.

Lemma run_spec self jobs :
  _make_jobs format_value self = inr jobs ->
  run format_value run_jobs self = run_jobs jobs (number_of_cores self).
Proof.
  intros Hjobs. unfold run. rewrite Hjobs. simpl.
  destruct (run_jobs jobs (number_of_cores self)) as [e | yielded];
    [reflexivity |].
  simpl. by rewrite results_loop.
Qed.

Lemma name_path_of_inj self : Inj (=) (=) (name_path_of self).
Proof.
  intros l1 l2 Heq. unfold name_path_of in Heq.
  by repeat apply (inj (String.app _)) in Heq.
Qed.

Lemma job_for_search self c :
  paths (job_search (job_for format_value self c))
  = Paths_init
      (name_path_of self
         (label format_value (prior_tuples (perturbation_model self)) c))
      (tag (paths (search self)))
      (path_prefix (paths (search self)))
      (remove_files (paths (search self))).
Proof. reflexivity. Qed.

Lemma job_for_perturbed_search self c :
  paths (job_perturbed_search (job_for format_value self c))
  = Paths_init
      (name_path_of self
         (label format_value (prior_tuples (perturbation_model self)) c))
      (tag (paths (search self)) +:+ "[perturbed]")
      (path_prefix (paths (search self)))
      (remove_files (paths (search self))).
Proof. reflexivity. Qed.

(** C3.  Performing a job fits, with the baseline search and against the
    job's analysis, the composite model which holds the base model only;
    then fits, with the perturbed search and against the same analysis, the
    composite model which holds the perturbation model and the base model;
    and returns the job result made of the two results, the baseline
    result first. *)
Theorem perform_pairs_the_two_fits j (w w1 w2 : World)
    (baseline perturbed : Result) :
  fit (job_search j)
      ({[ "model" := job_model j ]} : gmap string Model)
      (job_analysis j) w = (inr baseline, w1) ->
  fit (job_perturbed_search j)
      ({[ "perturbation" := job_perturbation_model j;
          "model" := job_model j ]} : gmap string Model)
      (job_analysis j) w1 = (inr perturbed, w2) ->
  perform fit j w = (inr (JobResult_init baseline perturbed), w2)
  /\ result (JobResult_init baseline perturbed) = baseline
  /\ perturbed_result (JobResult_init baseline perturbed) = perturbed.
Proof.
  intros Hbaseline Hperturbed. split; [| done].
  unfold perform, bind, ret. cbv zeta.
  rewrite (insert_insert_ne _ "model" "perturbation") by done.
  rewrite !insert_empty, Hbaseline. by rewrite Hperturbed.
Qed.

Lemma perturbed_tag_neq (t : string) : t <> t +:+ "[perturbed]".
Proof. by apply append_suffix_neq. Qed.

Lemma job_for_namespaces_NoDup self c :
  NoDup (namespaces (job_for format_value self c)).
Proof.
  unfold namespaces. rewrite job_for_search, job_for_perturbed_search.
  apply NoDup_cons. split; [| apply NoDup_singleton].
  rewrite list_elem_of_singleton. intros [=Heq]. by apply perturbed_tag_neq in Heq.
Qed.

Lemma lookup_jobs self lists jobs i j :
  _lists self = inr lists ->
  _make_jobs format_value self = inr jobs ->
  jobs !! i = Some j ->
  exists c, lists !! i = Some c /\ j = job_for format_value self c.
Proof.
  intros Hlists Hjobs Hj. rewrite make_jobs_spec, Hlists in Hjobs.
  injection Hjobs as <-. rewrite list_lookup_fmap in Hj.
  destruct (lists !! i) as [c |]; [| done]. injection Hj as <-. by exists c.
Qed.

Lemma lookup_labels self lists labels i L :
  _lists self = inr lists ->
  _labels format_value self = inr labels ->
  labels !! i = Some L ->
  exists c, lists !! i = Some c
    /\ L = label format_value (prior_tuples (perturbation_model self)) c.
Proof.
  intros Hlists Hlabels HL. rewrite labels_spec, Hlists in Hlabels.
  injection Hlabels as <-. rewrite list_lookup_fmap in HL.
  destruct (lists !! i) as [c |]; [| done]. injection HL as <-. by exists c.
Qed.

Lemma labels_have_lists self labels :
  _labels format_value self = inr labels ->
  exists lists, _lists self = inr lists.
Proof.
  rewrite labels_spec. destruct (_lists self) as [| lists]; [done |].
  by exists lists.
Qed.

(** C10.  The job built for the vector of index [i], whose label is [L]:
    the paths of its baseline search have the name
    ["{name}/{tag}/{non_linear_tag}/{L}"] of the template and the tag, the
    path prefix and the removal flag of the template; the paths of its
    perturbed search have the same name, path prefix and removal flag,
    and the tag of the baseline followed by ["[perturbed]"]. *)
Theorem job_paths_from_template self (labels : list string) (i : nat)
    (L : string) :
  _labels format_value self = inr labels ->
  labels !! i = Some L ->
  exists jobs j,
    _make_jobs format_value self = inr jobs
    /\ jobs !! i = Some j
    /\ name (paths (job_search j)) =
         name (paths (search self)) +:+ "/" +:+
         tag (paths (search self)) +:+ "/" +:+
         non_linear_tag (search self) +:+ "/" +:+ L
    /\ tag (paths (job_search j)) = tag (paths (search self))
    /\ path_prefix (paths (job_search j)) = path_prefix (paths (search self))
    /\ remove_files (paths (job_search j)) = remove_files (paths (search self))
    /\ name (paths (job_perturbed_search j)) = name (paths (job_search j))
    /\ tag (paths (job_perturbed_search j)) =
         tag (paths (job_search j)) +:+ "[perturbed]"
    /\ path_prefix (paths (job_perturbed_search j)) =
         path_prefix (paths (job_search j))
    /\ remove_files (paths (job_perturbed_search j)) =
         remove_files (paths (job_search j)).
Proof.
  intros Hlabels HL.
  destruct (labels_have_lists _ _ Hlabels) as [lists Hlists].
  destruct (lookup_labels _ _ _ _ _ Hlists Hlabels HL) as (c & Hc & ->).
  exists (map (job_for format_value self) lists), (job_for format_value self c).
  split; [by rewrite make_jobs_spec, Hlists |].
  split; [by rewrite list_lookup_fmap, Hc |].
  by split_and!.
Qed.

(** C5, amended.  For two jobs of one run: the baseline and the perturbed
    namespace of a job differ, the baseline namespace of either job differs
    from the perturbed namespace of the other, and when the labels of the
    two vectors differ the four namespaces are pairwise different. *)
Theorem namespaces_disjoint_when_labels_differ self
    (labels : list string) (jobs : list Job') (i k : nat)
    (Li Lk : string) (ji jk : Job') :
  _labels format_value self = inr labels ->
  _make_jobs format_value self = inr jobs ->
  labels !! i = Some Li -> labels !! k = Some Lk ->
  jobs !! i = Some ji -> jobs !! k = Some jk ->
  NoDup (namespaces ji)
  /\ NoDup (namespaces jk)
  /\ paths (job_search ji) <> paths (job_perturbed_search jk)
  /\ paths (job_perturbed_search ji) <> paths (job_search jk)
  /\ (Li <> Lk -> NoDup (namespaces ji ++ namespaces jk)).
Proof.
  intros Hlabels Hjobs HLi HLk Hji Hjk.
  destruct (labels_have_lists _ _ Hlabels) as [lists Hlists].
  destruct (lookup_jobs _ _ _ _ _ Hlists Hjobs Hji) as (ci & Hci & ->).
  destruct (lookup_jobs _ _ _ _ _ Hlists Hjobs Hjk) as (ck & Hck & ->).
  destruct (lookup_labels _ _ _ _ _ Hlists Hlabels HLi) as (ci' & Hci' & ->).
  destruct (lookup_labels _ _ _ _ _ Hlists Hlabels HLk) as (ck' & Hck' & ->).
  assert (ci' = ci) as -> by congruence.
  assert (ck' = ck) as -> by congruence.
  split_and!; try apply job_for_namespaces_NoDup.
  - rewrite job_for_search, job_for_perturbed_search. intros [=_ Heq].
    by apply perturbed_tag_neq in Heq.
  - rewrite job_for_search, job_for_perturbed_search. intros [=_ Heq].
    symmetry in Heq. by apply perturbed_tag_neq in Heq.
  - intros Hne. unfold namespaces.
    rewrite !job_for_search, !job_for_perturbed_search. simpl.
    assert (Hname : forall l1 l2,
      name_path_of self l1 = name_path_of self l2 -> l1 = l2)
      by apply name_path_of_inj.
    repeat (apply NoDup_cons; split); [| | | | apply NoDup_nil_2];
      rewrite ?elem_of_cons, ?elem_of_nil; intros H;
      repeat destruct H as [H | H]; try done;
      pose proof (f_equal name H) as Hn; pose proof (f_equal tag H) as Ht;
      simpl in Hn, Ht;
      solve [ by apply perturbed_tag_neq in Ht
            | symmetry in Ht; by apply perturbed_tag_neq in Ht
            | by apply Hname in Hn ].
Qed.

(** C8, amended.  A label shared by two vectors of the grid is not
    detected: when the grid is enumerated, one label is emitted and one
    job is built per vector, the run is what the executor yields for these
    jobs, and two jobs whose vectors have the same label have the same
    baseline namespace and the same perturbed namespace. *)
Theorem label_collision_is_not_detected self (lists : list (list Q)) :
  _lists self = inr lists ->
  exists labels jobs,
    _labels format_value self = inr labels
    /\ length labels = length lists
    /\ _make_jobs format_value self = inr jobs
    /\ length jobs = length lists
    /\ run format_value run_jobs self = run_jobs jobs (number_of_cores self)
    /\ forall i k L,
         labels !! i = Some L -> labels !! k = Some L ->
         exists ji jk,
           jobs !! i = Some ji /\ jobs !! k = Some jk
           /\ namespaces ji = namespaces jk.
Proof.
  intros Hlists.
  exists (map (label format_value (prior_tuples (perturbation_model self))) lists),
         (map (job_for format_value self) lists).
  assert (Hjobs : _make_jobs format_value self
                  = inr (map (job_for format_value self) lists))
    by (by rewrite make_jobs_spec, Hlists).
  split_and!.
  - by rewrite labels_spec, Hlists.
  - apply length_map.
  - exact Hjobs.
  - apply length_map.
  - by apply run_spec.
  - intros i k L Hi Hk. rewrite list_lookup_fmap in Hi, Hk.
    destruct (lists !! i) as [ci |] eqn:Hci; [| done].
    destruct (lists !! k) as [ck |] eqn:Hck; [| done].
    injection Hi as Hi. injection Hk as Hk.
    exists (job_for format_value self ci), (job_for format_value self ck).
    rewrite !list_lookup_fmap, Hci, Hck. split_and!; try done.
    unfold namespaces.
    rewrite !job_for_search, !job_for_perturbed_search. congruence.
Qed.

(** C7, amended.  With a step size which is not in (0, 1] for some
    dimension, the grid enumerator raises a configuration error when the
    jobs are first asked for: no job is built and the run fails with
    that error, whatever the executor.  The number of cores is not
    checked: whenever the jobs are built, the run is what the executor
    yields for them and for the number of cores as configured. *)
Theorem invalid_step_size_fails_before_any_job self :
  (Exists (fun s => ~ (0 < s /\ s <= 1)%Q)
          (Grid.step_sizes (prior_count (perturbation_model self))
                           (step_size self)) ->
   _make_jobs format_value self = inl ConfigurationError
   /\ run format_value run_jobs self = inl ConfigurationError)
  /\ (forall jobs,
        _make_jobs format_value self = inr jobs ->
        run format_value run_jobs self
        = run_jobs jobs (number_of_cores self)).
Proof.
  split; [| apply run_spec].
  intros Hinvalid.
  assert (Hlists : _lists self = inl ConfigurationError).
  { unfold _lists, make_lists.
    destruct (forallb Grid.valid_step _) eqn:Hall;
      [| by rewrite andb_false_r].
    exfalso. apply Exists_exists in Hinvalid as (s & Hs & Hbad).
    apply Hbad, GridFacts.valid_step_spec.
    rewrite forallb_forall in Hall. by apply Hall, list_elem_of_In. }
  assert (Hjobs : _make_jobs format_value self = inl ConfigurationError)
    by (by rewrite make_jobs_spec, Hlists).
  split; [exact Hjobs |]. unfold run. by rewrite Hjobs.
Qed.

(** C1, amended.  The run returns the results which the executor yields,
    in the order in which it yields them.  When the executor yields one
    result per job, in whatever order, their number is the number of
    vectors of the grid; when it yields them in the order of submission,
    the result of index [i] is the result of the job built for the vector
    of index [i]. *)
Theorem run_returns_results_as_yielded self
    (lists : list (list Q)) (jobs : list Job') (yielded : list JobResult) :
  _lists self = inr lists ->
  _make_jobs format_value self = inr jobs ->
  run_jobs jobs (number_of_cores self) = inr yielded ->
  run format_value run_jobs self = inr yielded
  /\ ((exists jobs', jobs' ≡ₚ jobs
                     /\ Forall2 (performed_by fit) jobs' yielded) ->
      length yielded = length lists)
  /\ (Forall2 (performed_by fit) jobs yielded ->
      forall i c,
        lists !! i = Some c ->
        exists r, yielded !! i = Some r
                  /\ performed_by fit (job_for format_value self c) r).
Proof.
  intros Hlists Hjobs Hyielded.
  assert (Ejobs : jobs = map (job_for format_value self) lists).
  { rewrite make_jobs_spec, Hlists in Hjobs. by injection Hjobs. }
  split_and!.
  - by rewrite (run_spec _ _ Hjobs).
  - intros (jobs' & Hperm & Hall). apply Forall2_length in Hall.
    apply Permutation_length in Hperm.
    rewrite <- Hall, Hperm, Ejobs. apply length_map.
  - intros Hall i c Hc.
    assert (Hj : jobs !! i = Some (job_for format_value self c))
      by (by rewrite Ejobs, list_lookup_fmap, Hc).
    destruct (Forall2_lookup_l _ _ _ _ _ Hall Hj) as (r & Hr & Hperf).
    by exists r.
Qed.

End RunFacts.

(** ** The code run on the small configuration *)

Module DemoFacts.
Import Demo.

Lemma format_N_inj : Inj (=) (=) format_N.
Proof. unfold format_N. apply _. Qed.

Lemma pretty_N_go_underscore_free (x : N) (s : string) :
  underscore_free s = true -> underscore_free (pretty_N_go x s) = true.
Proof.
  revert s. induction (N.lt_wf_0 x) as [x _ IH]; intros s Hs.
  destruct (decide (x = 0)%N) as [-> | Hx]; [by rewrite pretty_N_go_0 |].
  rewrite pretty_N_go_step by lia.
  apply IH; [apply N.div_lt; lia |].
  simpl. rewrite Hs, andb_true_r.
  unfold pretty_N_char. by repeat case_match.
Qed.

Lemma format_N_underscore_free (v : N) : underscore_free (format_N v) = true.
Proof.
  unfold format_N, pretty, pretty_N. case_decide; [done |].
  by apply pretty_N_go_underscore_free.
Qed.

(** A job performed by [fit] from the empty world leaves its two
    namespaces in the world. *)
Ltac performed :=
  repeat (constructor;
          [match goal with
           | |- performed_by _ ?j _ => exists [], (namespaces j); reflexivity
           end |]);
  constructor.

End DemoFacts.

Lemma label_joins_tokens_witness :
  label Demo.format_N [("centre", Demo.percent); ("sigma", Demo.percent)]
        [1 # 2; 1 # 4]%Q = "centre_50_sigma_25"
  /\ label Demo.format_N [("centre", Demo.percent); ("sigma", Demo.percent)]
           [1 # 2; 1 # 4]%Q
     <> label Demo.format_N [("centre", Demo.percent); ("sigma", Demo.percent)]
              [1 # 2; 1 # 2]%Q.
Proof.
  destruct (label_joins_tokens Demo.format_N
              [("centre", Demo.percent); ("sigma", Demo.percent)])
    as (Hjoin & _ & Hdiffer).
  split.
  - rewrite Hjoin. reflexivity.
  - apply Hdiffer.
    + apply DemoFacts.format_N_inj.
    + apply DemoFacts.format_N_underscore_free.
    + vm_compute. discriminate.
Defined.

Lemma perform_pairs_the_two_fits_witness :
  let j := job_for Demo.format_N
             (Demo.sensitivity [("centre", Demo.percent)] (Uniform (1 # 4)) 2)
             [1 # 4]%Q in
  perform Demo.fit j []
  = (inr (JobResult_init {| log_likelihood := 1 # 4 |}
                         {| log_likelihood := 1 # 2 |}),
     [paths (job_search j); paths (job_perturbed_search j)]).
Proof.
  intros j.
  refine (proj1 (perform_pairs_the_two_fits Demo.fit j []
                   [paths (job_search j)] _ _ _ _ _)); reflexivity.
Defined.

Lemma job_paths_from_template_witness :
  exists jobs j,
    _make_jobs Demo.format_N
      (Demo.sensitivity [("centre", Demo.percent)] (Uniform (1 # 4)) 2)
    = inr jobs
    /\ jobs !! 0 = Some j
    /\ paths (job_search j)
       = Paths_init "phase/tag/emcee/centre_25" "tag" "prefix" true
    /\ paths (job_perturbed_search j)
       = Paths_init "phase/tag/emcee/centre_25" "tag[perturbed]" "prefix" true.
Proof.
  destruct (job_paths_from_template Demo.format_N
              (Demo.sensitivity [("centre", Demo.percent)] (Uniform (1 # 4)) 2)
              ["centre_25"; "centre_50"; "centre_75"; "centre_100"] 0
              "centre_25")
    as (jobs & j & Hjobs & Hj & Hn & Ht & Hp & Hr & Hn' & Ht' & Hp' & Hr').
  - reflexivity.
  - reflexivity.
  - exists jobs, j. split; [exact Hjobs |]. split; [exact Hj |].
    destruct (paths (job_search j)) as [n t p r].
    destruct (paths (job_perturbed_search j)) as [n' t' p' r'].
    simpl in *. subst. split; reflexivity.
Defined.

Lemma namespaces_disjoint_when_labels_differ_witness :
  let self := Demo.sensitivity [("centre", Demo.percent)] (Uniform (1 # 2)) 2 in
  NoDup (namespaces (job_for Demo.format_N self [1 # 2]%Q)
         ++ namespaces (job_for Demo.format_N self [1]%Q)).
Proof.
  intros self.
  refine (proj2 (proj2 (proj2 (proj2
    (namespaces_disjoint_when_labels_differ Demo.format_N self
       ["centre_50"; "centre_100"]
       (map (job_for Demo.format_N self) [[1 # 2]; [1]]%Q)
       0 1 "centre_50" "centre_100" _ _ _ _ _ _ _ _)))) _);
    try reflexivity.
  discriminate.
Defined.

(** C5 as stated fails: with a prior whose value is the same everywhere,
    the two jobs of the grid are different jobs with the same baseline
    namespace and the same perturbed namespace. *)
Lemma constant_prior_namespaces_collide :
  let self := Demo.sensitivity [("centre", Demo.constant)] (Uniform (1 # 2)) 2 in
  exists jobs ji jk,
    _make_jobs Demo.format_N self = inr jobs
    /\ jobs !! 0 = Some ji /\ jobs !! 1 = Some jk
    /\ ji <> jk
    /\ paths (job_search ji) = paths (job_search jk)
    /\ paths (job_perturbed_search ji) = paths (job_perturbed_search jk)
    /\ ~ NoDup (namespaces ji ++ namespaces jk).
Proof.
  intros self.
  exists (map (job_for Demo.format_N self) [[1 # 2]; [1]]%Q),
         (job_for Demo.format_N self [1 # 2]%Q),
         (job_for Demo.format_N self [1]%Q).
  split_and!; try reflexivity.
  - intros Heq. apply (f_equal job_analysis) in Heq. vm_compute in Heq.
    discriminate.
  - intros Hnodup. apply NoDup_cons in Hnodup as [Hnotin _]. apply Hnotin.
    apply elem_of_cons. right. apply elem_of_cons. left. reflexivity.
Qed.

Lemma label_collision_is_not_detected_witness :
  let self := Demo.sensitivity [("centre", Demo.constant)] (Uniform (1 # 2)) 2 in
  namespaces (job_for Demo.format_N self [1 # 2]%Q)
  = namespaces (job_for Demo.format_N self [1]%Q).
Proof.
  intros self.
  destruct (label_collision_is_not_detected Demo.format_N Demo.in_order self
              [[1 # 2]; [1]]%Q)
    as (labels & jobs & Hlabels & _ & Hjobs & _ & _ & Hsame).
  - reflexivity.
  - injection Hlabels as <-. injection Hjobs as <-.
    destruct (Hsame 0 1 "centre_1") as (ji & jk & Hji & Hjk & Heq);
      [reflexivity | reflexivity |].
    injection Hji as <-. injection Hjk as <-. exact Heq.
Defined.

(** C8 as stated fails: the two vectors of this grid are different and have
    the same label, and the run returns the results of both jobs. *)
Lemma colliding_labels_run_proceeds :
  let self := Demo.sensitivity [("centre", Demo.constant)] (Uniform (1 # 2)) 2 in
  _lists self = inr [[1 # 2]; [1]]%Q
  /\ _labels Demo.format_N self = inr ["centre_1"; "centre_1"]
  /\ run Demo.format_N Demo.in_order self
     = inr [JobResult_init {| log_likelihood := 1 # 2 |}
                           {| log_likelihood := 1 |};
            JobResult_init {| log_likelihood := 1 |}
                           {| log_likelihood := 2 |}]
  /\ run Demo.format_N Demo.in_order self <> inl ConfigurationError.
Proof. intros self. split_and!; try reflexivity. discriminate. Qed.

Lemma invalid_step_size_fails_before_any_job_witness :
  let self := Demo.sensitivity [("centre", Demo.percent)] (Uniform 2) 2 in
  _make_jobs Demo.format_N self = inl ConfigurationError
  /\ run Demo.format_N Demo.in_order self = inl ConfigurationError.
Proof.
  intros self.
  apply (proj1 (invalid_step_size_fails_before_any_job
                  Demo.format_N Demo.in_order self)).
  apply Exists_cons_hd. intros [_ Hle]. apply Hle. reflexivity.
Defined.

(** C7 as stated fails: with one core and a valid step size the jobs are
    built and the run returns their results. *)
Lemma one_core_run_proceeds :
  let self := Demo.sensitivity [("centre", Demo.percent)] (Uniform (1 # 2)) 1 in
  number_of_cores self = 1
  /\ (exists jobs, _make_jobs Demo.format_N self = inr jobs /\ length jobs = 2)
  /\ run Demo.format_N Demo.in_order self
     = inr [JobResult_init {| log_likelihood := 1 # 2 |}
                           {| log_likelihood := 1 |};
            JobResult_init {| log_likelihood := 1 |}
                           {| log_likelihood := 2 |}]
  /\ run Demo.format_N Demo.in_order self <> inl ConfigurationError.
Proof.
  intros self. split_and!; try reflexivity; [| discriminate].
  eexists. split; reflexivity.
Qed.

Lemma run_returns_results_as_yielded_witness :
  let self := Demo.sensitivity [("centre", Demo.percent)] (Uniform (1 # 4)) 2 in
  exists yielded,
    run Demo.format_N Demo.in_order self = inr yielded
    /\ length yielded = 4
    /\ exists r, yielded !! 3 = Some r
                 /\ performed_by Demo.fit (job_for Demo.format_N self [1]%Q) r.
Proof.
  intros self.
  pose (lists := [[1 # 4]; [1 # 2]; [3 # 4]; [1]]%Q).
  pose (jobs := map (job_for Demo.format_N self) lists).
  pose (yielded :=
    [JobResult_init {| log_likelihood := 1 # 4 |} {| log_likelihood := 1 # 2 |};
     JobResult_init {| log_likelihood := 1 # 2 |} {| log_likelihood := 1 |};
     JobResult_init {| log_likelihood := 3 # 4 |} {| log_likelihood := 3 # 2 |};
     JobResult_init {| log_likelihood := 1 |} {| log_likelihood := 2 |}]).
  assert (Hall : Forall2 (performed_by Demo.fit) jobs yielded).
  { unfold jobs, lists, yielded. DemoFacts.performed. }
  destruct (run_returns_results_as_yielded Demo.format_N Demo.fit Demo.in_order
              self lists jobs yielded)
    as (Hrun & Hlen & Hidx); [reflexivity | reflexivity | reflexivity |].
  exists yielded. split; [exact Hrun |]. split.
  - apply Hlen. exists jobs. split; [reflexivity | exact Hall].
  - apply (Hidx Hall 3). reflexivity.
Defined.

(** C1 as stated fails: an executor which yields one result per job, in the
    reverse of the order of submission.  The run returns the results in
    that order, and its first result is not a result of the job built for
    the first vector of the grid. *)
Lemma run_reversed_not_in_grid_order :
  let self := Demo.sensitivity [("centre", Demo.percent)] (Uniform (1 # 4)) 2 in
  exists lists jobs yielded r,
    _lists self = inr lists
    /\ length lists = 4
    /\ lists !! 0 = Some [1 # 4]%Q
    /\ _make_jobs Demo.format_N self = inr jobs
    /\ Demo.reversed jobs (number_of_cores self) = inr yielded
    /\ (exists jobs', jobs' ≡ₚ jobs
                      /\ Forall2 (performed_by Demo.fit) jobs' yielded)
    /\ run Demo.format_N Demo.reversed self = inr yielded
    /\ yielded !! 0 = Some r
    /\ ~ performed_by Demo.fit (job_for Demo.format_N self [1 # 4]%Q) r.
Proof.
  intros self.
  pose (lists := [[1 # 4]; [1 # 2]; [3 # 4]; [1]]%Q).
  pose (jobs := map (job_for Demo.format_N self) lists).
  exists lists, jobs.
  exists [JobResult_init {| log_likelihood := 1 |} {| log_likelihood := 2 |};
     JobResult_init {| log_likelihood := 3 # 4 |} {| log_likelihood := 3 # 2 |};
     JobResult_init {| log_likelihood := 1 # 2 |} {| log_likelihood := 1 |};
     JobResult_init {| log_likelihood := 1 # 4 |} {| log_likelihood := 1 # 2 |}].
  eexists. split_and!; try reflexivity.
  - exists (reverse jobs). split; [apply reverse_Permutation |].
    unfold jobs, lists. DemoFacts.performed.
  - intros (w & w' & Hperform). vm_compute in Hperform. discriminate.
Qed.

(** * More of the code *)

(** ** Python indexing *)

Lemma py_index_in_range {A : Type} (l : list A) (item : Z) :
  (0 <= item < Z.of_nat (length l))%Z ->
  exists x, py_index l item = inr x /\ l !! Z.to_nat item = Some x.
Proof.
  intros Hrange. unfold py_index. cbv zeta.
  assert ((item <? 0)%Z = false) as -> by lia.
  assert ((item <? 0)%Z = false) as -> by lia.
  assert ((Z.of_nat (length l) <=? item)%Z = false) as -> by lia. simpl.
  destruct (lookup_lt_is_Some_2 l (Z.to_nat item)) as [x Hx]; [lia |].
  rewrite Hx. by exists x.
Qed.

Lemma py_index_from_end {A : Type} (l : list A) (item : Z) :
  (- Z.of_nat (length l) <= item < 0)%Z ->
  exists x, py_index l item = inr x
            /\ l !! Z.to_nat (Z.of_nat (length l) + item) = Some x.
Proof.
  intros Hrange. unfold py_index. cbv zeta.
  assert ((item <? 0)%Z = true) as -> by lia.
  assert ((item + Z.of_nat (length l) <? 0)%Z = false) as -> by lia.
  assert ((Z.of_nat (length l) <=? item + Z.of_nat (length l))%Z = false)
    as -> by lia.
  simpl. rewrite (Z.add_comm (Z.of_nat (length l))).
  destruct (lookup_lt_is_Some_2 l (Z.to_nat (item + Z.of_nat (length l))))
    as [x Hx]; [lia |].
  rewrite Hx. by exists x.
Qed.

Lemma py_index_out_of_range {A : Type} (l : list A) (item : Z) :
  (item < - Z.of_nat (length l) \/ Z.of_nat (length l) <= item)%Z ->
  py_index l item = inl IndexError.
Proof.
  intros [Hlow | Hhigh]; unfold py_index; cbv zeta.
  - assert ((item <? 0)%Z = true) as -> by lia.
    by assert ((item + Z.of_nat (length l) <? 0)%Z = true) as -> by lia.
  - assert ((item <? 0)%Z = false) as -> by lia.
    assert ((item <? 0)%Z = false) as -> by lia.
    by assert ((Z.of_nat (length l) <=? item)%Z = true) as -> by lia.
Qed.

Lemma py_index_last {A : Type} (l : list A) (x : A) :
  py_index (l ++ [x]) (-1) = inr x.
Proof.
  destruct (py_index_from_end (l ++ [x]) (-1)) as (y & -> & Hy).
  { rewrite length_app. simpl. lia. }
  rewrite length_app in Hy. simpl in Hy.
  replace (Z.to_nat (Z.of_nat (length l + 1) + -1)) with (length l) in Hy by lia.
  rewrite list_lookup_middle in Hy by done. by injection Hy as ->.
Qed.

Lemma py_index_first {A : Type} (x : A) (l : list A) :
  py_index (x :: l) 0 = inr x.
Proof.
  destruct (py_index_in_range (x :: l) 0) as (y & -> & Hy); [simpl; lia |].
  simpl in Hy. by injection Hy as ->.
Qed.

(** ** The collection of results *)

Section ResultsFacts.

Context {R : Type}.
Implicit Types (self : ResultsCollection.t R).

Import ResultsCollection.

Lemma results_first_cons self (x : R) (l : list R) :
  result_list self = x :: l -> first self = inr (Some x).
Proof. intros H. unfold first. by rewrite H, py_index_first. Qed.

Lemma results_last_snoc self (l : list R) (y : R) :
  result_list self = l ++ [y] -> last self = inr (Some y).
Proof.
  intros H. unfold last. rewrite H, py_index_last, length_app. simpl.
  by assert ((0 <? length l + 1)%nat = true) as -> by (apply Nat.ltb_lt; lia).
Qed.

(** X7.  Adding a result under a new name makes it the result of that
    phase and the last result, leaves the results of the other names as they
    were and grows the collection by one. *)
Theorem results_add_then_from_phase self (phase_name_ : string) (r : R)
    self' :
  add self phase_name_ r = inr self' ->
  from_phase self' phase_name_ = inr r
  /\ (forall other, other <> phase_name_ ->
        from_phase self' other = from_phase self other)
  /\ last self' = inr (Some r)
  /\ __len__ self' = S (__len__ self)
  /\ result_list self' = result_list self ++ [r].
Proof.
  unfold add. destruct (result_dict self !! phase_name_) eqn:Hfresh; [done |].
  intros [= <-]. unfold from_phase, __len__. simpl. split_and!.
  - by rewrite lookup_insert_eq.
  - intros other Hne. by rewrite lookup_insert_ne.
  - by apply (results_last_snoc _ (result_list self)).
  - by apply map_size_insert_None.
  - reflexivity.
Qed.

(** X8.  [add] raises exactly when the collection has a result of that
    name, and then raises a [PipelineException]; [from_phase] raises a
    [PipelineException] exactly when it has none. *)
Theorem results_add_raises_iff_name_taken self (phase_name_ : string) (r : R) :
  (add self phase_name_ r = inl PipelineException
   <-> exists r0, from_phase self phase_name_ = inr r0)
  /\ (forall e, add self phase_name_ r = inl e -> e = PipelineException)
  /\ (from_phase self phase_name_ = inl PipelineException
      <-> exists self', add self phase_name_ r = inr self')
  /\ (forall e, from_phase self phase_name_ = inl e -> e = PipelineException).
Proof.
  unfold add, from_phase.
  destruct (result_dict self !! phase_name_) as [r0 |]; split_and!;
    try split; try done; try (intros [? [=]]); try (intros e [=]; done);
    eauto.
Qed.

Lemma built_names self :
  built self ->
  exists names : list string,
    NoDup names
    /\ length names = length (result_list self)
    /\ dom (result_dict self) = list_to_set names
    /\ forall i name_,
         names !! i = Some name_ ->
         result_dict self !! name_ = result_list self !! i.
Proof.
  induction 1 as [| self name_ r self' Hbuilt IH Hadd].
  - exists []. split_and!; [apply NoDup_nil_2 | done | simpl; apply dom_empty_L | done].
  - destruct IH as (names & Hnodup & Hlen & Hdom & Hlookup).
    unfold add in Hadd.
    destruct (result_dict self !! name_) eqn:Hfresh; [done |].
    injection Hadd as <-. simpl.
    assert (Hnotin : name_ ∉ names).
    { intros Hin. apply not_elem_of_dom in Hfresh. apply Hfresh.
      rewrite Hdom. by apply elem_of_list_to_set. }
    exists (names ++ [name_]). split_and!.
    + apply NoDup_app. split_and!; [done | | apply NoDup_singleton].
      intros x Hx ->%list_elem_of_singleton. done.
    + rewrite !length_app. simpl. lia.
    + rewrite dom_insert_L, Hdom, list_to_set_app_L. simpl.
      rewrite (union_empty_r_L {[name_]}). apply (comm_L (∪)).
    + intros i n Hn. apply lookup_app_Some in Hn as [Hn | [Hi Hn]].
      * assert (n <> name_) by (intros ->; apply Hnotin;
                                eapply list_elem_of_lookup_2; eauto).
        rewrite lookup_insert_ne by done.
        rewrite lookup_app_l by (rewrite <- Hlen; by eapply lookup_lt_Some).
        by apply Hlookup.
      * apply list_lookup_singleton_Some in Hn as [Hi' <-].
        rewrite lookup_insert_eq.
        replace i with (length (result_list self)) by lia.
        by rewrite list_lookup_middle.
Qed.

(** X9.  In a collection built by [add] from the empty collection the
    length, which counts the names, is the number of results; the result of
    every name is one of the results, and every result is the result of a
    name. *)
Theorem results_len_counts_results self :
  built self ->
  __len__ self = length (result_list self)
  /\ (forall name_ r, from_phase self name_ = inr r -> r ∈ result_list self)
  /\ (forall r, r ∈ result_list self ->
        exists name_, from_phase self name_ = inr r).
Proof.
  intros Hbuilt. destruct (built_names _ Hbuilt)
    as (names & Hnodup & Hlen & Hdom & Hlookup).
  unfold __len__, from_phase. split_and!.
  - rewrite <- size_dom, Hdom, size_list_to_set by done. exact Hlen.
  - intros n r Hr. destruct (result_dict self !! n) as [r' |] eqn:Hn; [| done].
    injection Hr as ->.
    assert (Hin : n ∈ names).
    { apply (elem_of_list_to_set (C := gset string)). rewrite <- Hdom.
      by apply elem_of_dom. }
    apply list_elem_of_lookup in Hin as [i Hi].
    rewrite (Hlookup _ _ Hi) in Hn. by eapply list_elem_of_lookup_2.
  - intros r Hr. apply list_elem_of_lookup in Hr as [i Hi].
    destruct (lookup_lt_is_Some_2 names i) as [n Hn].
    { rewrite Hlen. by eapply lookup_lt_Some. }
    exists n. by rewrite (Hlookup _ _ Hn), Hi.
Qed.

(** Indexing a collection: an index from [0] up to the number of results
    gives the result at that place, an index from minus that number up to
    [-1] gives the result counted from the end, and any other index raises
    [IndexError]. *)
Lemma results_getitem_index self (item : Z) :
  let n := Z.of_nat (length (result_list self)) in
  ((0 <= item < n)%Z ->
     exists r, __getitem__ self item = inr r
               /\ result_list self !! Z.to_nat item = Some r)
  /\ ((- n <= item < 0)%Z ->
     exists r, __getitem__ self item = inr r
               /\ result_list self !! Z.to_nat (n + item) = Some r)
  /\ ((item < - n \/ n <= item)%Z -> __getitem__ self item = inl IndexError).
Proof.
  intros n. unfold __getitem__. split_and!.
  - apply py_index_in_range.
  - intros Hrange. by apply py_index_from_end.
  - apply py_index_out_of_range.
Qed.

(** X10.  [first] and [last] never raise: on the empty collection both are
    [None]; otherwise [first] is the result of index [0] and [last] the
    result of index [-1], and adding a result to a collection which is not
    empty does not change [first]. *)
Theorem results_first_last self :
  (result_list self = [] -> first self = inr None /\ last self = inr None)
  /\ (result_list self <> [] ->
      exists r_first r_last,
        first self = inr (Some r_first) /\ __getitem__ self 0 = inr r_first
        /\ last self = inr (Some r_last)
        /\ __getitem__ self (-1) = inr r_last
        /\ forall name_ r self',
             add self name_ r = inr self' ->
             first self' = inr (Some r_first))
  /\ (forall e, first self <> inl e /\ last self <> inl e).
Proof.
  split_and!.
  - unfold first, last. by intros ->.
  - intros Hne. destruct (result_list self) as [| x l] eqn:E; [done |].
    destruct (exists_last (l := x :: l)) as (l' & y & Hy); [done |].
    exists x, y. unfold __getitem__. split_and!.
    + by apply (results_first_cons _ _ l).
    + rewrite E. apply py_index_first.
    + apply (results_last_snoc _ l'). congruence.
    + rewrite E, Hy. apply py_index_last.
    + intros n r self' Hadd. unfold add in Hadd.
      destruct (result_dict self !! n); [done |]. injection Hadd as <-.
      apply (results_first_cons _ _ (l ++ [r])). simpl. by rewrite E.
  - intros e. destruct (result_list self) as [| x l] eqn:E.
    + unfold first, last. by rewrite E.
    + destruct (exists_last (l := x :: l)) as (l' & y & Hy); [done |].
      rewrite (results_first_cons _ _ l E), (results_last_snoc _ l' y) by congruence. done.
Qed.

End ResultsFacts.

(** ** The pipeline *)

Lemma size_list_to_set_le (l : list string) :
  size (list_to_set l : gset string) <= length l.
Proof.
  induction l as [| x l IH].
  { rewrite list_to_set_nil, size_empty. done. }
  rewrite list_to_set_cons, length_cons.
  destruct (decide (x ∈ l)) as [Hin | Hnotin].
  - rewrite (subseteq_union_1_L {[x]}); [lia |].
    apply singleton_subseteq_l. by apply elem_of_list_to_set.
  - rewrite size_union, size_singleton; [lia |].
    apply disjoint_singleton_l. by rewrite elem_of_list_to_set.
Qed.

Lemma duplicates_iff_smaller_set (l : list string) :
  (size (list_to_set l : gset string) <? length l)%nat = false <-> NoDup l.
Proof.
  rewrite Nat.ltb_ge. split.
  - induction l as [| x l IH]; intros Hsize; [apply NoDup_nil_2 |].
    rewrite list_to_set_cons, length_cons in Hsize.
    destruct (decide (x ∈ l)) as [Hin | Hnotin].
    + exfalso. rewrite (subseteq_union_1_L {[x]}) in Hsize.
      * pose proof (size_list_to_set_le l). lia.
      * apply singleton_subseteq_l. by apply elem_of_list_to_set.
    + apply NoDup_cons. split; [done |]. apply IH.
      rewrite size_union, size_singleton in Hsize; [lia |].
      apply disjoint_singleton_l. by rewrite elem_of_list_to_set.
  - intros Hnodup. by rewrite size_list_to_set.
Qed.

Section PipelineFacts.

Context {Optimizer R World : Type}.
Implicit Types (self other : Pipeline.t Optimizer).

Lemma pipeline_init_decide (pipeline_name_ : string)
    (phases_ : list (Phase Optimizer)) :
  Pipeline.init pipeline_name_ phases_
  = if decide (NoDup (map phase_name phases_))
    then inr {| Pipeline.pipeline_name := pipeline_name_;
                Pipeline.phases := phases_ |}
    else inl PipelineException.
Proof.
  unfold Pipeline.init. cbv zeta.
  destruct (size _ <? _)%nat eqn:Hsize; case_decide as Hnodup; try done.
  - apply duplicates_iff_smaller_set in Hnodup. congruence.
  - apply duplicates_iff_smaller_set in Hsize. done.
Qed.

(** X11.  A pipeline is created exactly when the names of its phases are
    pairwise different, and then has the name and the phases given; with a
    repeated name the constructor raises a [PipelineException]. *)
Theorem pipeline_init_unique_names (pipeline_name_ : string)
    (phases_ : list (Phase Optimizer)) :
  (NoDup (map phase_name phases_)
   <-> Pipeline.init pipeline_name_ phases_
       = inr {| Pipeline.pipeline_name := pipeline_name_;
                Pipeline.phases := phases_ |})
  /\ (~ NoDup (map phase_name phases_)
      <-> Pipeline.init pipeline_name_ phases_ = inl PipelineException).
Proof.
  rewrite pipeline_init_decide. by case_decide; split; split.
Qed.

(** X12.  The sum of two pipelines has the phases of the first followed by
    the phases of the second and the name ["{first} + {second}"]; it raises
    a [PipelineException] exactly when a phase name occurs twice among
    them; and the sum is associative, failures included. *)
Theorem pipeline_add_concatenates self other (third : Pipeline.t Optimizer) :
  Pipeline.__add__ self other
  = (if decide (NoDup (map phase_name (Pipeline.phases self)
                       ++ map phase_name (Pipeline.phases other)))
     then inr {| Pipeline.pipeline_name :=
                   Pipeline.pipeline_name self +:+ " + " +:+
                   Pipeline.pipeline_name other;
                 Pipeline.phases :=
                   Pipeline.phases self ++ Pipeline.phases other |}
     else inl PipelineException)
  /\ (Pipeline.__add__ self other ≫= fun sum => Pipeline.__add__ sum third)
     = (Pipeline.__add__ other third ≫= fun sum => Pipeline.__add__ self sum).
Proof.
  assert (Hadd : forall a b : Pipeline.t Optimizer,
    Pipeline.__add__ a b
    = if decide (NoDup (map phase_name (Pipeline.phases a)
                        ++ map phase_name (Pipeline.phases b)))
      then inr {| Pipeline.pipeline_name :=
                    Pipeline.pipeline_name a +:+ " + " +:+
                    Pipeline.pipeline_name b;
                  Pipeline.phases := Pipeline.phases a ++ Pipeline.phases b |}
      else inl PipelineException).
  { intros a b. unfold Pipeline.__add__.
    rewrite pipeline_init_decide, map_app. reflexivity. }
  split; [apply Hadd |].
  rewrite (Hadd self other), (Hadd other third).
  destruct (decide (NoDup (map phase_name (Pipeline.phases self)
                           ++ map phase_name (Pipeline.phases other))))
    as [Hab | Hab];
  destruct (decide (NoDup (map phase_name (Pipeline.phases other)
                           ++ map phase_name (Pipeline.phases third))))
    as [Hbc | Hbc]; simpl; rewrite ?Hadd; simpl; rewrite ?map_app.
  - rewrite <- !app_assoc, !append_assoc.
    by repeat case_decide.
  - rewrite <- !app_assoc. case_decide as Habc; [| done].
    exfalso. apply Hbc. by apply NoDup_app in Habc as (_ & _ & ?).
  - case_decide as Habc; [| done].
    exfalso. apply Hab. rewrite app_assoc in Habc.
    by apply NoDup_app in Habc as [? _].
  - reflexivity.
Qed.

Variable output_path : string.
Variable pickle_dumps : Optimizer -> string.
Variable write_file : string -> string -> IO World unit.
Variable func : Phase Optimizer -> ResultsCollection.t R -> IO World R.




End PipelineFacts.

(** ** The aggregator: the text of the metadata *)

Module SplitFacts.
Import Aggregator.


Lemma split_not_nil (sep : ascii) (s : string) : split sep s <> [].
Proof.
  destruct s as [| c s]; simpl; [done |].
  destruct (Ascii.eqb c sep); [done |]. by destruct (split sep s).
Qed.



Lemma split_length (sep : ascii) (s : string) :
  contains_char sep s = true -> 2 <= length (split sep s).
Proof.
  induction s as [| c s IH]; simpl; [done |].
  destruct (Ascii.eqb c sep); simpl.
  - intros _. pose proof (split_not_nil sep s).
    destruct (split sep s); [done | simpl; lia].
  - intros Hs. specialize (IH Hs). destruct (split sep s); simpl in *; lia.
Qed.

Lemma dict_of_pairs_total (pairs : list (list string))
    (dict : gmap string string) :
  Forall (fun line_pair => 2 <= length line_pair) pairs ->
  exists dict', dict_of_pairs pairs dict = inr dict'.
Proof.
  intros Hpairs. revert dict.
  induction Hpairs as [| line_pair pairs Hlen _ IH]; intros dict; simpl.
  - by exists dict.
  - destruct line_pair as [| key [| value line_pair]]; simpl in Hlen; try lia.
    rewrite py_index_first.
    destruct (py_index_in_range (key :: value :: line_pair) 1)
      as (x & -> & _); [simpl; lia |].
    simpl. apply IH.
Qed.

End SplitFacts.

(** X15.  Whatever the text of the metadata file, reading the attributes
    from it raises nothing: every line which is kept has an ["="] and so at
    least a key and a value. *)
Theorem metadata_never_raises (text : string) :
  exists attributes, Aggregator.metadata text = inr attributes.
Proof.
  unfold Aggregator.metadata, Aggregator.metadata_pairs.
  apply SplitFacts.dict_of_pairs_total. apply Forall_fmap, Forall_forall.
  intros line Hline. apply list_elem_of_In, filter_In in Hline as [_ Hline].
  simpl. by apply SplitFacts.split_length.
Qed.


(** ** The aggregator: predicates, filters and groups *)

Section AggregatorFacts.

Context {PhaseOutput Value : Type} `{EqDecision Value}.
Variable getattr : PhaseOutput -> string -> pyexn + Value.
Variable py_in : Value -> Value -> pyexn + bool.

Abbreviation Predicate := (@Aggregator.Predicate Value).
Abbreviation call := (Aggregator.__call__ getattr py_in).
Abbreviation passes := (Aggregator.passes getattr py_in).
Abbreviation filter_ := (Aggregator.filter getattr py_in).

Implicit Types (p : Predicate) (ps qs : list Predicate)
  (phase : PhaseOutput) (phases kept : list PhaseOutput).

Lemma passes_true ps phase :
  passes ps phase = inr true
  <-> Forall (fun p => call p phase = inr true) ps.
Proof.
  induction ps as [| p ps IH]; simpl.
  - split; [constructor | done].
  - rewrite Forall_cons, <- IH.
    destruct (call p phase) as [e | [|]]; simpl; naive_solver.
Qed.

Lemma passes_app ps qs phase :
  passes (ps ++ qs) phase
  = (keep ← passes ps phase;
     if keep : bool then passes qs phase else inr false).
Proof.
  induction ps as [| p ps IH]; simpl; [reflexivity |].
  destruct (call p phase) as [e | [|]]; simpl; [done | apply IH | done].
Qed.

Lemma filter_cons_inv ps phase phases kept :
  filter_ ps (phase :: phases) = inr kept ->
  exists keep kept',
    passes ps phase = inr keep
    /\ filter_ ps phases = inr kept'
    /\ kept = if keep : bool then phase :: kept' else kept'.
Proof.
  simpl. destruct (passes ps phase) as [e | keep]; simpl; [done |].
  destruct (filter_ ps phases) as [e | kept']; simpl; [done |].
  intros [= <-]. by exists keep, kept'.
Qed.

Lemma filter_sublist ps phases kept :
  filter_ ps phases = inr kept -> kept `sublist_of` phases.
Proof.
  revert kept. induction phases as [| phase phases IH]; intros kept Hfilter.
  - by injection Hfilter as <-.
  - apply filter_cons_inv in Hfilter as (keep & kept' & _ & Hrest & ->).
    destruct keep; [apply sublist_skip | apply sublist_cons]; by apply IH.
Qed.

(** X17.  When [filter] returns, the phases it keeps are, in their order,
    the phases on which every predicate is true; filtering them again
    with the same predicates keeps them all. *)
Theorem filter_keeps_the_phases_which_pass ps phases kept :
  Aggregator.filter getattr py_in ps phases = inr kept ->
  kept `sublist_of` phases
  /\ (forall phase,
        phase ∈ kept <->
        phase ∈ phases /\ Forall (fun p => Aggregator.__call__ getattr py_in p phase = inr true) ps)
  /\ Aggregator.filter getattr py_in ps kept = inr kept.
Proof.
  revert kept. induction phases as [| phase phases IH]; intros kept Hfilter.
  - injection Hfilter as <-. split_and!; [done | | done].
    intros phase. rewrite elem_of_nil. naive_solver.
  - apply filter_cons_inv in Hfilter
      as (keep & kept' & Hkeep & Hrest & ->).
    destruct (IH kept' Hrest) as (Hsub & Hmem & Hidem).
    destruct keep.
    + split_and!.
      * by apply sublist_skip.
      * intros phase'. rewrite !elem_of_cons, Hmem.
        apply passes_true in Hkeep. naive_solver.
      * simpl. by rewrite Hkeep, Hidem.
    + split_and!.
      * by apply sublist_cons.
      * intros phase'. rewrite elem_of_cons, Hmem. split; [naive_solver |].
        intros [[-> | Hin] Hall]; [| done].
        apply passes_true in Hall. congruence.
      * done.
Qed.

(** X18.  Filtering by some predicates and filtering the result by others
    returns what one filter by all of them returns, and returns exactly
    when that filter returns; and when the predicates are given in the two
    orders and both filters return, they return the same phases. *)
Theorem filter_twice_is_filter_by_all ps qs phases :
  (forall kept,
     Aggregator.filter getattr py_in (ps ++ qs) phases = inr kept
     <-> exists kept1, Aggregator.filter getattr py_in ps phases = inr kept1
                       /\ Aggregator.filter getattr py_in qs kept1 = inr kept)
  /\ (forall kept kept',
        Aggregator.filter getattr py_in (ps ++ qs) phases = inr kept ->
        Aggregator.filter getattr py_in (qs ++ ps) phases = inr kept' ->
        kept = kept').
Proof.
  split.
  - induction phases as [| phase phases IH]; intros kept; simpl.
    + split; [intros [= <-]; by exists [] | by intros (? & [= <-] & [= <-])].
    + rewrite passes_app.
      destruct (passes ps phase) as [e | [|]] eqn:Hps; simpl.
      * split; [done | by intros (? & ? & ?)].
      * destruct (passes qs phase) as [e | keep] eqn:Hqs; simpl.
        -- split; [done |]. intros (kept1 & Hkept1 & Hkept).
           destruct (filter_ ps phases); simpl in *; [done |].
           injection Hkept1 as <-. simpl in Hkept. by rewrite Hqs in Hkept.
        -- destruct (filter_ (ps ++ qs) phases) as [e | kept0] eqn:Hall;
             simpl.
           ++ split; [done |]. intros (kept1 & Hkept1 & Hkept).
              destruct (filter_ ps phases) as [| k1]; simpl in *; [done |].
              injection Hkept1 as <-. simpl in Hkept. rewrite Hqs in Hkept.
              simpl in Hkept.
              destruct (filter_ qs k1) as [| k2] eqn:Hk2; simpl in *; [done |].
              assert (inl e = inr k2) by (apply IH; by exists k1). done.
           ++ destruct (proj1 (IH kept0) eq_refl) as (k1 & Hk1 & Hk2).
              rewrite Hk1. simpl. split.
              ** intros [= <-]. exists (phase :: k1). split; [done |].
                 simpl. by rewrite Hqs, Hk2.
              ** intros (kept1 & [= <-] & Hkept). simpl in Hkept.
                 by rewrite Hqs, Hk2 in Hkept.
      * destruct (filter_ (ps ++ qs) phases) as [e | kept0] eqn:Hall; simpl.
        -- split; [done |]. intros (kept1 & Hkept1 & Hkept).
           destruct (filter_ ps phases) as [| k1]; simpl in *; [done |].
           injection Hkept1 as <-.
           assert (inl e = inr kept) by (apply IH; by exists k1). done.
        -- destruct (proj1 (IH kept0) eq_refl) as (k1 & Hk1 & Hk2).
           rewrite Hk1. simpl. split.
           ** intros [= <-]. by exists k1.
           ** intros (kept1 & [= <-] & Hkept). rewrite Hk2 in Hkept.
              by injection Hkept as ->.
  - induction phases as [| phase phases IH]; intros kept kept' H1 H2.
    + simpl in *. congruence.
    + apply filter_cons_inv in H1 as (keep1 & k1 & Hkeep1 & Hk1 & ->).
      apply filter_cons_inv in H2 as (keep2 & k2 & Hkeep2 & Hk2 & ->).
      rewrite (IH _ _ Hk1 Hk2).
      assert (keep1 = keep2) as ->; [| done].
      rewrite passes_app in Hkeep1, Hkeep2.
      destruct (passes ps phase) as [| [|]], (passes qs phase) as [| [|]];
        simpl in *; congruence.
Qed.

(** X19.  A predicate and its inverse split the phases: when the filter by
    the predicate returns, so does the filter by its inverse, every phase
    is kept by exactly one of the two, and inverting twice gives a
    predicate of the same values.  [a != v] is the inverse of [a == v]. *)
Theorem filter_and_inverse_split_the_phases p phases kept :
  Aggregator.filter getattr py_in [p] phases = inr kept ->
  exists others,
    Aggregator.filter getattr py_in [Aggregator.__invert__ p] phases = inr others
    /\ phases ≡ₚ kept ++ others
    /\ Aggregator.filter getattr py_in [p] others = inr []
    /\ Aggregator.filter getattr py_in [Aggregator.__invert__ p] kept = inr []
    /\ (forall phase,
          Aggregator.__call__ getattr py_in (Aggregator.__invert__ (Aggregator.__invert__ p)) phase
          = Aggregator.__call__ getattr py_in p phase)
    /\ (forall (attribute : string) (value : Value),
          Aggregator.__ne__ attribute value
          = Aggregator.__invert__ (Aggregator.__eq__ attribute value)).
Proof.
  intros Hfilter.
  assert (Hinv : forall phase,
    call (Aggregator.__invert__ (Aggregator.__invert__ p)) phase
    = call p phase).
  { intros phase. simpl. destruct (call p phase) as [| []]; done. }
  revert kept Hfilter.
  induction phases as [| phase phases IH]; intros kept Hfilter.
  - injection Hfilter as <-. exists []. by split_and!.
  - apply filter_cons_inv in Hfilter as (keep & kept' & Hkeep & Hrest & ->).
    destruct (IH kept' Hrest) as (others & Hothers & Hperm & Hp & Hnp & _ & _).
    simpl in Hkeep. destruct (call p phase) as [| b] eqn:Hcall; [done |].
    assert (b = keep) as -> by (destruct b; simpl in Hkeep; congruence).
    destruct keep.
    + exists others. split_and!; try done.
      * simpl. rewrite Hcall. simpl. by rewrite Hothers.
      * simpl. by rewrite Hperm.
      * simpl. rewrite Hcall. simpl. by rewrite Hnp.
    + exists (phase :: others). split_and!; try done.
      * simpl. rewrite Hcall. simpl. by rewrite Hothers.
      * rewrite Hperm. by rewrite Permutation_middle.
      * simpl. rewrite Hcall. simpl. by rewrite Hp.
Qed.

(** X20.  Filtering a group of aggregators keeps the number of groups, and
    every group of the result is made of phases of the group at the same
    place, in their order. *)
Theorem group_filter_keeps_the_groups (groups groups' : list (list PhaseOutput))
    ps :
  Aggregator.group_filter getattr py_in groups ps = inr groups' ->
  length groups' = length groups
  /\ Forall2 sublist groups' groups.
Proof.
  unfold Aggregator.group_filter. revert groups'.
  induction groups as [| group groups IH]; intros groups'; simpl.
  - intros [= <-]. split; [done | constructor].
  - destruct (filter_ ps group) as [| kept] eqn:Hkept; simpl; [done |].
    destruct (mapM (filter_ ps) groups) as [| rest] eqn:Hrest; simpl; [done |].
    intros [= <-]. destruct (IH rest eq_refl) as [Hlen Hall].
    split; [simpl; by rewrite Hlen |].
    constructor; [| done].
    by apply filter_sublist in Hkept.
Qed.

End AggregatorFacts.

Section GroupFacts.

Context {PhaseOutput Value : Type} `{EqDecision Value}.
Variable getattr : PhaseOutput -> string -> pyexn + Value.

Abbreviation groups_keyed_ := (Aggregator.groups_keyed getattr).
Abbreviation group_loop_ := (Aggregator.group_loop getattr).

Implicit Types (phase : PhaseOutput) (phases : list PhaseOutput)
  (group_dict : list (Value * list PhaseOutput)).

Lemma append_to_group_keys (key : Value) phase group_dict :
  map fst (Aggregator.append_to_group key phase group_dict)
  = if decide (key ∈ map fst group_dict) then map fst group_dict
    else map fst group_dict ++ [key].
Proof.
  induction group_dict as [| [key' group] group_dict IH];
    cbn [Aggregator.append_to_group map fst].
  - by rewrite decide_False by apply not_elem_of_nil.
  - destruct (decide (key' = key)) as [-> | Hne]; cbn [map fst].
    + rewrite decide_True by apply list_elem_of_here. done.
    + rewrite IH. destruct (decide (key ∈ map fst group_dict)) as [Hin | Hnotin].
      * rewrite decide_True by (by apply list_elem_of_further). done.
      * rewrite decide_False; [done |].
        intros [Heq | Hin]%elem_of_cons; [congruence | done].
Qed.

Lemma append_to_group_phases (key : Value) phase group_dict :
  concat (map snd (Aggregator.append_to_group key phase group_dict))
  ≡ₚ concat (map snd group_dict) ++ [phase].
Proof.
  induction group_dict as [| [key' group] group_dict IH]; simpl; [done |].
  destruct (decide (key' = key)) as [-> | Hne]; simpl.
  - rewrite <- !app_assoc. apply Permutation_app_head, Permutation_app_comm.
  - by rewrite IH, app_assoc.
Qed.

Lemma append_to_group_keyed (field : string) (key : Value) phase group_dict :
  groups_keyed_ field group_dict ->
  getattr phase field = inr key ->
  groups_keyed_ field (Aggregator.append_to_group key phase group_dict).
Proof.
  intros [Hkeys Hgroups] Hkey. split.
  - rewrite append_to_group_keys. case_decide as Hin; [done |].
    apply NoDup_app. split_and!; [done | | apply NoDup_singleton].
    intros x Hx ->%list_elem_of_singleton. done.
  - clear Hkeys.
    induction Hgroups as [| [key' group] group_dict Hgroup Hrest IH]; simpl.
    + apply Forall_cons. split; [| apply Forall_nil_2]. simpl.
      split; [done |]. apply Forall_cons. split; [done | apply Forall_nil_2].
    + destruct (decide (key' = key)) as [-> | Hne];
        (constructor; [| done]); simpl in *.
      * destruct Hgroup as [_ Hgroup]. split; [by destruct group |].
        apply Forall_app. split; [done |]. by constructor.
      * done.
Qed.

Lemma group_loop_keyed (field : string) phases group_dict group_dict' :
  groups_keyed_ field group_dict ->
  group_loop_ field phases group_dict = inr group_dict' ->
  groups_keyed_ field group_dict'
  /\ concat (map snd group_dict') ≡ₚ concat (map snd group_dict) ++ phases.
Proof.
  revert group_dict.
  induction phases as [| phase phases IH]; intros group_dict Hkeyed; simpl.
  - intros [= <-]. by rewrite app_nil_r.
  - destruct (getattr phase field) as [| key] eqn:Hkey; simpl; [done |].
    intros Hloop.
    destruct (IH _ (append_to_group_keyed _ _ _ _ Hkeyed Hkey) Hloop)
      as [Hkeyed' Hperm].
    split; [done |].
    rewrite Hperm, append_to_group_phases, <- app_assoc. done.
Qed.

Lemma group_loop_returns (field : string) phases group_dict :
  (exists group_dict', group_loop_ field phases group_dict = inr group_dict')
  <-> Forall (fun phase => exists value, getattr phase field = inr value) phases.
Proof.
  revert group_dict. induction phases as [| phase phases IH];
    intros group_dict; simpl.
  - split; [constructor | by eexists].
  - rewrite Forall_cons.
    destruct (getattr phase field) as [e | key]; simpl.
    + split; [by intros [? ?] | by intros [[? ?] _]].
    + rewrite IH. split; [| tauto]. intros Hall. split; [by exists key | done].
Qed.

(** X21.  [group_by] returns exactly when every phase has the field.  The
    groups it returns hold every phase once; no group is empty; the phases
    of a group have the same value of the field, and phases of different
    groups have different values. *)
Theorem group_by_partitions_the_phases phases (field : string) :
  ((exists groups, Aggregator.group_by getattr phases field = inr groups)
   <-> Forall (fun phase => exists value, getattr phase field = inr value)
              phases)
  /\ forall groups,
       Aggregator.group_by getattr phases field = inr groups ->
       concat groups ≡ₚ phases
       /\ Forall (fun group => group <> []) groups
       /\ (forall i j group1 group2 phase1 phase2,
             groups !! i = Some group1 -> groups !! j = Some group2 ->
             phase1 ∈ group1 -> phase2 ∈ group2 ->
             (getattr phase1 field = getattr phase2 field <-> i = j)).
Proof.
  unfold Aggregator.group_by. split.
  - rewrite <- (group_loop_returns field phases []).
    destruct (group_loop_ field phases []) as [e | group_dict]; simpl.
    + split; by intros [? ?].
    + split; by eexists.
  - intros groups Hgroups.
    destruct (group_loop_ field phases []) as [e | group_dict] eqn:Hloop;
      simpl in Hgroups; [done |].
    injection Hgroups as <-.
    destruct (group_loop_keyed field phases [] group_dict) as [[Hkeys Hall] Hperm];
      [split; constructor | done |].
    split_and!.
    + by rewrite Hperm.
    + apply Forall_fmap. eapply Forall_impl; [exact Hall |].
      by intros [key group] [Hne _].
    + intros i j group1 group2 phase1 phase2 Hi Hj Hin1 Hin2.
      rewrite list_lookup_fmap in Hi, Hj.
      destruct (group_dict !! i) as [[key1 g1] |] eqn:Hgi; [| done].
      destruct (group_dict !! j) as [[key2 g2] |] eqn:Hgj; [| done].
      simpl in Hi, Hj. injection Hi as ->. injection Hj as ->.
      rewrite Forall_forall in Hall.
      destruct (Hall _ (list_elem_of_lookup_2 _ _ _ Hgi)) as [_ Hg1].
      destruct (Hall _ (list_elem_of_lookup_2 _ _ _ Hgj)) as [_ Hg2].
      rewrite Forall_forall in Hg1, Hg2. simpl in Hg1, Hg2.
      rewrite (Hg1 _ Hin1), (Hg2 _ Hin2). split.
      * intros [= Hkey]. eapply (NoDup_lookup (map fst group_dict));
          [done | | ]; rewrite list_lookup_fmap.
        -- by rewrite Hgi.
        -- rewrite Hgj. simpl. by rewrite Hkey.
      * intros ->. congruence.
Qed.

End GroupFacts.

(** ** The path utilities *)

Lemma concat_empty_cons (x : string) (xs : list string) :
  String.concat "" (x :: xs) = x +:+ String.concat "" xs.
Proof.
  destruct xs as [| y xs]; simpl; [| reflexivity].
  induction x as [| c x IH]; [reflexivity |]. by rewrite append_cons, <- IH.
Qed.

Section PathUtilFacts.

Context {World : Type}.
Variable makedirs : string -> IO World unit.

Abbreviation make_path :=
  (make_and_return_path_from_path_and_folder_names makedirs).

(** X22.  The path returned is the path given followed by every folder
    name with a ["/"]; making the folders of a list which is two lists one
    after the other is making those of the first and then, from the path
    returned, those of the second; and a [FileExistsError] of [os.makedirs]
    never leaves the function. *)
Theorem make_path_appends_the_folders (path : string)
    (folder_names more : list string) (w : World) :
  make_path path (folder_names ++ more) w
  = io_bind (make_path path folder_names)
            (fun path' => make_path path' more) w
  /\ (forall path' w',
        make_path path folder_names w = (inr path', w') ->
        path' = path +:+ String.concat ""
                           (map (fun folder => folder +:+ "/") folder_names))
  /\ (forall e w',
        make_path path folder_names w = (inl e, w') -> e <> FileExistsError).
Proof.
  revert path w. induction folder_names as [| folder folder_names IH];
    intros path w.
  - split_and!; try done.
    intros path' w' [= <- <-]. simpl.
    induction path as [| c path IHp]; [reflexivity |].
    by rewrite append_cons, <- IHp.
  - cbn [make_and_return_path_from_path_and_folder_names app map].
    unfold io_bind.
    destruct (makedirs (path +:+ folder +:+ "/") w) as [[e | []] w1] eqn:Hmk.
    + destruct (IH (path +:+ folder +:+ "/") w1) as (Happ & Hpath & Herr).
      destruct e; try (split_and!; [done | done | by intros ? ? [= <- _]]).
      unfold io_bind in Happ. rewrite Happ. split_and!; [done | | done].
      intros path' w' Hmake. rewrite (Hpath _ _ Hmake).
      by rewrite concat_empty_cons, !append_assoc.
    + destruct (IH (path +:+ folder +:+ "/") w1) as (Happ & Hpath & Herr).
      unfold io_bind in Happ. rewrite Happ. split_and!; [done | | done].
      intros path' w' Hmake. rewrite (Hpath _ _ Hmake).
      by rewrite concat_empty_cons, !append_assoc.
Qed.

End PathUtilFacts.

(** ** More on the sensitivity run *)


Section MoreLabelFacts.

Context {Value : Type}.
Variable format_value : Value -> string.

(** X4.  The label of a vector is the empty string exactly when the vector
    or the prior tuples are empty. *)
Theorem label_empty_iff (pts : list (string * @Prior Value)) (c : list Q) :
  label format_value pts c = "" <-> c = [] \/ pts = [].
Proof.
  rewrite label_eq_spec. unfold label_spec.
  destruct c as [| v c], pts as [| [path prior] pts]; try (simpl; tauto).
  rewrite tokens_cons, concat_cons. split; [| by intros [? | ?]].
  intros Heq. apply (f_equal String.length) in Heq.
  rewrite !append_length in Heq. simpl in Heq. lia.
Qed.

End MoreLabelFacts.

Section MoreRunFacts.

Context {Value Instance Image Analysis World : Type}.
Variable format_value : Value -> string.
Variable fit :
  NonLinearSearch -> gmap string (@AbstractPriorModel Value Instance) ->
  Analysis -> @M World Result.
Variable run_jobs :
  list (@Job Value Instance Analysis) -> nat -> exn + list JobResult.

Implicit Types (self : @Sensitivity Value Instance Image Analysis)
  (j : @Job Value Instance Analysis).

(** X1.  [perform] raises what the first failing fit raises: when the
    baseline fit raises, the perturbed fit is not run and the world is as
    the baseline fit left it; when the baseline fit returns, what the
    perturbed fit raises is raised; and [perform] returns only when both
    fits return. *)
Theorem perform_raises_what_a_fit_raises j (w : World) :
  let baseline_model : gmap string (@AbstractPriorModel Value Instance) :=
    {[ "model" := job_model j ]} in
  let perturbed_model : gmap string (@AbstractPriorModel Value Instance) :=
    {[ "perturbation" := job_perturbation_model j; "model" := job_model j ]} in
  (forall e w1,
     fit (job_search j) baseline_model (job_analysis j) w = (inl e, w1) ->
     perform fit j w = (inl e, w1))
  /\ (forall r w1 e w2,
        fit (job_search j) baseline_model (job_analysis j) w = (inr r, w1) ->
        fit (job_perturbed_search j) perturbed_model (job_analysis j) w1
        = (inl e, w2) ->
        perform fit j w = (inl e, w2))
  /\ (forall job_result w2,
        perform fit j w = (inr job_result, w2) ->
        exists w1,
          fit (job_search j) baseline_model (job_analysis j) w
          = (inr (result job_result), w1)
          /\ fit (job_perturbed_search j) perturbed_model (job_analysis j) w1
             = (inr (perturbed_result job_result), w2)).
Proof.
  intros baseline_model perturbed_model.
  assert (Hperform : perform fit j w
    = match fit (job_search j) baseline_model (job_analysis j) w with
      | (inl e, w1) => (inl e, w1)
      | (inr r, w1) =>
          match fit (job_perturbed_search j) perturbed_model
                    (job_analysis j) w1 with
          | (inl e, w2) => (inl e, w2)
          | (inr pr, w2) => (inr (JobResult_init r pr), w2)
          end
      end).
  { unfold perform, bind, ret, baseline_model, perturbed_model. cbv zeta.
    rewrite (insert_insert_ne _ "model" "perturbation") by done.
    rewrite !insert_empty. reflexivity. }
  rewrite Hperform. split_and!.
  - by intros e w1 ->.
  - by intros r w1 e w2 -> ->.
  - intros job_result w2.
    destruct (fit (job_search j) baseline_model (job_analysis j) w)
      as [[e | r] w1]; [done |].
    destruct (fit (job_perturbed_search j) perturbed_model (job_analysis j) w1)
      as [[e | pr] w2'] eqn:Hperturbed; [done |].
    intros [= <- <-]. by exists w1.
Qed.


(** X3.  The searches of a run are as many as its labels; their names are
    pairwise different exactly when the labels are; and all of them have
    the tag, the path prefix and the removal flag of the template. *)
Theorem search_names_distinct_iff_labels_distinct self
    (labels : list string) (searches : list NonLinearSearch) :
  _labels format_value self = inr labels ->
  _searches format_value self = inr searches ->
  length searches = length labels
  /\ (NoDup (map (fun search_ => name (paths search_)) searches)
      <-> NoDup labels)
  /\ Forall (fun search_ =>
               tag (paths search_) = tag (paths (search self))
               /\ path_prefix (paths search_)
                  = path_prefix (paths (search self))
               /\ remove_files (paths search_)
                  = remove_files (paths (search self)))
            searches.
Proof.
  intros Hlabels. unfold _searches. rewrite Hlabels. simpl. intros [= <-].
  split_and!.
  - apply length_map.
  - rewrite <- list_fmap_compose.
    pose proof (name_path_of_inj self) as Hinj.
    exact (NoDup_fmap (name_path_of self) labels).
  - apply Forall_fmap, Forall_forall. by intros label_ _.
Qed.


End MoreRunFacts.

(** ** The rest of the code run on small configurations *)

Lemma perform_raises_what_a_fit_raises_witness :
  let j := job_for Demo.format_N
             (Demo.sensitivity [("centre", Demo.percent)] (Uniform (1 # 4)) 2)
             [1 # 4]%Q in
  perform MoreDemo.failing_fit j []
  = (inl FitException,
     [paths (job_search j); paths (job_perturbed_search j)]).
Proof.
  intros j.
  refine (proj1 (proj2 (perform_raises_what_a_fit_raises
                          MoreDemo.failing_fit j []))
            {| log_likelihood := 1 # 4 |} [paths (job_search j)] _ _ _ _);
    reflexivity.
Defined.


Lemma search_names_distinct_iff_labels_distinct_witness :
  exists searches,
    _searches Demo.format_N
      (Demo.sensitivity [("centre", Demo.percent)] (Uniform (1 # 2)) 2)
    = inr searches
    /\ NoDup (map (fun search_ => name (paths search_)) searches).
Proof.
  eexists. split; [reflexivity |].
  refine (proj2 (proj1 (proj2 (search_names_distinct_iff_labels_distinct
    Demo.format_N
    (Demo.sensitivity [("centre", Demo.percent)] (Uniform (1 # 2)) 2)
    ["centre_50"; "centre_100"] _ eq_refl eq_refl))) _).
  apply NoDup_cons. split; [| apply NoDup_singleton].
  rewrite list_elem_of_singleton. discriminate.
Defined.

Lemma results_add_then_from_phase_witness :
  exists self',
    ResultsCollection.add MoreDemo.two_results "third" 30 = inr self'
    /\ ResultsCollection.from_phase self' "third" = inr 30
    /\ ResultsCollection.last self' = inr (Some 30).
Proof.
  eexists. split; [reflexivity |].
  destruct (results_add_then_from_phase MoreDemo.two_results "third" 30 _
              eq_refl) as (Hfrom & _ & Hlast & _).
  split; [exact Hfrom | exact Hlast].
Defined.

Lemma results_add_raises_iff_name_taken_witness :
  ResultsCollection.add MoreDemo.two_results "first" 30 = inl PipelineException.
Proof.
  apply (proj1 (results_add_raises_iff_name_taken MoreDemo.two_results
                  "first" 30)).
  exists 10. reflexivity.
Defined.

Lemma results_len_counts_results_witness :
  ResultsCollection.__len__ MoreDemo.two_results = 2.
Proof.
  refine (proj1 (results_len_counts_results MoreDemo.two_results _)).
  eapply (ResultsCollection.built_add _ "second" 20);
    [eapply (ResultsCollection.built_add _ "first" 10);
       [apply ResultsCollection.built_init | reflexivity]
    | reflexivity].
Defined.

Lemma results_first_last_witness :
  exists r_first r_last,
    ResultsCollection.first MoreDemo.two_results = inr (Some r_first)
    /\ ResultsCollection.last MoreDemo.two_results = inr (Some r_last).
Proof.
  destruct (results_first_last MoreDemo.two_results) as (_ & Hsome & _).
  destruct Hsome as (r_first & r_last & Hfirst & _ & Hlast & _);
    [discriminate |].
  exists r_first, r_last. split; [exact Hfirst | exact Hlast].
Defined.




Lemma filter_keeps_the_phases_which_pass_witness :
  Aggregator.filter MoreDemo.getattr MoreDemo.py_in
    [Aggregator.__eq__ "pipeline" "lens"; Aggregator.contains "dataset_name" "a"]
    MoreDemo.outputs
  = inr [MoreDemo.output "lens" "a"]
  /\ [MoreDemo.output "lens" "a"] `sublist_of` MoreDemo.outputs.
Proof.
  split; [reflexivity |].
  refine (proj1 (filter_keeps_the_phases_which_pass
                   MoreDemo.getattr MoreDemo.py_in
                   [Aggregator.__eq__ "pipeline" "lens";
                    Aggregator.contains "dataset_name" "a"]
                   MoreDemo.outputs _ _)).
  reflexivity.
Defined.

Lemma filter_twice_is_filter_by_all_witness :
  exists kept1,
    Aggregator.filter MoreDemo.getattr MoreDemo.py_in
      [Aggregator.__eq__ "pipeline" "lens"] MoreDemo.outputs = inr kept1
    /\ Aggregator.filter MoreDemo.getattr MoreDemo.py_in
         [Aggregator.contains "dataset_name" "a"] kept1
       = inr [MoreDemo.output "lens" "a"].
Proof.
  apply (proj1 (proj1 (filter_twice_is_filter_by_all
                         MoreDemo.getattr MoreDemo.py_in
                         [Aggregator.__eq__ "pipeline" "lens"]
                         [Aggregator.contains "dataset_name" "a"]
                         MoreDemo.outputs) _)).
  reflexivity.
Defined.

Lemma filter_and_inverse_split_the_phases_witness :
  exists others,
    Aggregator.filter MoreDemo.getattr MoreDemo.py_in
      [Aggregator.__ne__ "pipeline" "lens"] MoreDemo.outputs = inr others
    /\ MoreDemo.outputs
       ≡ₚ [MoreDemo.output "lens" "a"; MoreDemo.output "lens" "b"] ++ others.
Proof.
  destruct (filter_and_inverse_split_the_phases
              MoreDemo.getattr MoreDemo.py_in
              (Aggregator.__eq__ "pipeline" "lens") MoreDemo.outputs
              [MoreDemo.output "lens" "a"; MoreDemo.output "lens" "b"])
    as (others & Hothers & Hperm & _); [reflexivity |].
  exists others. split; [exact Hothers | exact Hperm].
Defined.

Lemma group_filter_keeps_the_groups_witness :
  exists groups',
    Aggregator.group_filter MoreDemo.getattr MoreDemo.py_in
      [[MoreDemo.output "lens" "a"; MoreDemo.output "lens" "b"];
       [MoreDemo.output "source" "a"]]
      [Aggregator.__eq__ "dataset_name" "b"]
    = inr groups'
    /\ length groups' = 2.
Proof.
  eexists. split; [reflexivity |].
  refine (proj1 (group_filter_keeps_the_groups MoreDemo.getattr MoreDemo.py_in
                   [[MoreDemo.output "lens" "a"; MoreDemo.output "lens" "b"];
                    [MoreDemo.output "source" "a"]]
                   _ [Aggregator.__eq__ "dataset_name" "b"] _)).
  reflexivity.
Defined.

Lemma group_by_partitions_the_phases_witness :
  Aggregator.group_by MoreDemo.getattr MoreDemo.outputs "pipeline"
  = inr [[MoreDemo.output "lens" "a"; MoreDemo.output "lens" "b"];
         [MoreDemo.output "source" "a"]]
  /\ concat [[MoreDemo.output "lens" "a"; MoreDemo.output "lens" "b"];
             [MoreDemo.output "source" "a"]]
     ≡ₚ MoreDemo.outputs.
Proof.
  split; [reflexivity |].
  refine (proj1 (proj2 (group_by_partitions_the_phases MoreDemo.getattr
                          MoreDemo.outputs "pipeline") _ _)).
  reflexivity.
Defined.

Lemma make_path_appends_the_folders_witness :
  make_and_return_path_from_path_and_folder_names MoreDemo.makedirs
    "/path/to/" ["folder1"; "folder2"] ["/path/to/folder1/"]
  = (inr "/path/to/folder1/folder2/",
     ["/path/to/folder1/"; "/path/to/folder1/folder2/"])
  /\ "/path/to/folder1/folder2/"
     = "/path/to/" +:+ String.concat "" ["folder1/"; "folder2/"].
Proof.
  split; [reflexivity |].
  refine (proj1 (proj2 (make_path_appends_the_folders MoreDemo.makedirs
                          "/path/to/" ["folder1"; "folder2"] []
                          ["/path/to/folder1/"]))
            "/path/to/folder1/folder2/"
            ["/path/to/folder1/"; "/path/to/folder1/folder2/"] _).
  reflexivity.
Defined.

Lemma pipeline_init_unique_names_witness :
  Pipeline.init "pipeline" [MoreDemo.phase1; MoreDemo.phase2; MoreDemo.phase1_again]
  = inl PipelineException.
Proof.
  apply (proj1 (proj2 (pipeline_init_unique_names "pipeline"
           [MoreDemo.phase1; MoreDemo.phase2; MoreDemo.phase1_again]))).
  intros Hnodup. apply NoDup_cons in Hnodup as [Hnotin _]. apply Hnotin.
  apply elem_of_cons. right. apply elem_of_cons. left. reflexivity.
Defined.

Lemma label_empty_iff_witness :
  label Demo.format_N [("centre", Demo.percent)] [] = "".
Proof.
  apply (proj2 (label_empty_iff Demo.format_N [("centre", Demo.percent)] [])).
  left. reflexivity.
Defined.


